(** * Lazy sequence combinators of [features_tutorial/motivation.py]

    A shallow embedding of the generator toolkit of the tutorial
    ([pairwise], [contiguous], [to_ranges], [powerset], [all_permutations]
    and the word-finder expression) together with the Python 2 iterator
    primitives they are built from ([tee], [next], [izip], [list],
    [combinations], [permutations]), and of the other functions of the
    file that compute: the three versions of [find], the hand-written
    [my_zip], [my_map] and [my_filter], [can_fire], [fire] and [reward],
    the documenting decorators and [MarketScenario].

    Finite sources are lists.  A call that can raise returns an [outcome];
    a generator is described by what it yields, in order, and by how it
    ends. *)

From Stdlib Require Import ZArith Lia Factorial Sorting.Sorted Ascii.
From stdpp Require Import base list sorting lexico strings pretty gmap.

Set Default Proof Using "Type".

(** ** Exceptions and calls that may raise *)

Inductive exn : Type :=
| StopIteration
| UnboundLocalError
| ValueError
| IndexError.

Global Instance exn_eq_dec : EqDecision exn.
Proof. solve_decision. Defined.

Inductive outcome (A : Type) : Type :=
| Ok (a : A)
| Raise (e : exn).
Global Arguments Ok {A} a.
Global Arguments Raise {A} e.

(** Sequencing: the first exception raised aborts what follows. *)
Global Instance outcome_ret : MRet outcome := λ A a, Ok a.
Global Instance outcome_bind : MBind outcome := λ A B k m,
  match m with
  | Ok a => k a
  | Raise e => Raise e
  end.

(** ** Generators

    Running a generator to its end gives the values it yielded and the
    exception that stopped it, if any ([None] is normal exhaustion). *)

Record gen (A : Type) : Type := Gen {
  yielded : list A;
  failure : option exn;
}.
Global Arguments Gen {A} yielded failure.
Global Arguments yielded {A} g.
Global Arguments failure {A} g.

(** [yield v] followed by the rest of the body. *)
Definition gyield {A} (v : A) (rest : gen A) : gen A :=
  Gen (v :: yielded rest) (failure rest).

(** The body ends by falling off its end. *)
Definition gdone {A} : gen A := Gen [] None.

(** The body ends with an uncaught exception. *)
Definition graise {A} (e : exn) : gen A := Gen [] (Some e).

(** What the consumer of a Python 2 generator sees: a [StopIteration] that
    escapes the body is indistinguishable from exhaustion, every other
    exception reaches the consumer. *)
Definition generator {A} (body : gen A) : gen A :=
  match failure body with
  | Some StopIteration => Gen (yielded body) None
  | _ => body
  end.

(** ** Iterator primitives

    An iterator over a finite source is the list of the elements it has
    not produced yet. *)

Section Iterators.
Context {A : Type}.

(** [next(it)]: the next element and the advanced iterator. *)
Definition next (it : list A) : outcome (A * list A) :=
  match it with
  | [] => Raise StopIteration
  | x :: it' => Ok (x, it')
  end.

(** [itertools.tee(iterable, n)]: [n] independent iterators, or
    [ValueError] for a negative [n]. *)
Definition tee (iterable : list A) (n : Z) : outcome (list (list A)) :=
  if (n <? 0)%Z then Raise ValueError
  else Ok (replicate (Z.to_nat n) iterable).

(** [for _ in xrange(i): next(it)] *)
Fixpoint advance (i : nat) (it : list A) : outcome (list A) :=
  match i with
  | O => Ok it
  | S i' => r ← next it; advance i' (snd r)
  end.

(** [for i, it in enumerate(iterables): ...], counting from [i]. *)
Fixpoint stagger (i : nat) (iterables : list (list A))
  : outcome (list (list A)) :=
  match iterables with
  | [] => Ok []
  | it :: rest =>
      it' ← advance i it;
      rest' ← stagger (S i) rest;
      Ok (it' :: rest')
  end.

(** One round of [izip]: an element from each iterator, in order; [None]
    as soon as one of them is exhausted. *)
Fixpoint pull (its : list (list A)) : option (list A * list (list A)) :=
  match its with
  | [] => Some ([], [])
  | it :: rest =>
      match it with
      | [] => None
      | x :: it' =>
          match pull rest with
          | None => None
          | Some (xs, rest') => Some (x :: xs, it' :: rest')
          end
      end
  end.

Fixpoint izip_from (first : list A) (others : list (list A))
  : list (list A) :=
  match first with
  | [] => []
  | x :: first' =>
      match pull others with
      | None => []
      | Some (xs, others') => (x :: xs) :: izip_from first' others'
      end
  end.

(** [itertools.izip] over the unpacked [iterables]; with no iterable at
    all the result is empty. *)
Definition izip (iterables : list (list A)) : list (list A) :=
  match iterables with
  | [] => []
  | first :: others => izip_from first others
  end.

(** [pairwise(iterable, n)] *)
Definition pairwise (iterable : list A) (n : Z)
  : outcome (list (list A)) :=
  iterables ← tee iterable n;
  iterables ← stagger 0 iterables;
  Ok (izip iterables).

End Iterators.

(** ** Consecutive runs and their range tokens *)

(** The body of [contiguous] once the pair stream exists.  [y] is the
    loop variable of that name: unbound ([None]) until the first pair has
    been unpacked. *)
Fixpoint contiguous_loop (pairs : list (list Z)) (buffer : list Z)
    (y : option Z) : gen (list Z) :=
  match pairs with
  | [] =>
      match y with
      | None => graise UnboundLocalError
      | Some y => gyield (buffer ++ [y]) gdone
      end
  | xy :: pairs' =>
      match xy with
      | [x; y] =>
          let buffer := buffer ++ [x] in
          if (y - x >? 1)%Z
          then gyield buffer (contiguous_loop pairs' [] (Some y))
          else contiguous_loop pairs' buffer (Some y)
      | _ => graise ValueError
      end
  end.

(** [contiguous(iterable)] *)
Definition contiguous (iterable : list Z) : gen (list Z) :=
  generator
    match pairwise iterable 2 with
    | Raise e => graise e
    | Ok pairs => contiguous_loop pairs [] None
    end.

(** [l[i]] with Python's negative indices. *)
Definition getitem {A} (l : list A) (i : Z) : outcome A :=
  let i := if (i <? 0)%Z then (i + Z.of_nat (length l))%Z else i in
  if (i <? 0)%Z then Raise IndexError
  else match l !! Z.to_nat i with
       | Some x => Ok x
       | None => Raise IndexError
       end.

(** ['%d' % x] *)
Definition fmt_d (x : Z) : string := pretty x.

(** ['%d-%d' % (x, y)] *)
Definition fmt_d_d (x y : Z) : string := fmt_d x +:+ "-" +:+ fmt_d y.

(** The conditional expression yielded by [to_ranges] for one [subset]. *)
Definition range_token (subset : list Z) : outcome string :=
  if decide (length subset = 1)
  then x ← getitem subset 0; Ok (fmt_d x)
  else x ← getitem subset 0; y ← getitem subset (-1); Ok (fmt_d_d x y).

(** The loop of [to_ranges] over the subsets [contiguous] yields;
    [ending] is how [contiguous] ends after them. *)
Fixpoint to_ranges_loop (subsets : list (list Z)) (ending : option exn)
    : gen string :=
  match subsets with
  | [] => Gen [] ending
  | subset :: rest =>
      match range_token subset with
      | Raise e => graise e
      | Ok token => gyield token (to_ranges_loop rest ending)
      end
  end.

(** [to_ranges(iterable)] *)
Definition to_ranges (iterable : list Z) : gen string :=
  generator
    (let runs := contiguous iterable in
     to_ranges_loop (yielded runs) (failure runs)).

(** ** Combinatorial generators of [itertools]

    Both treat the elements of the pool as distinct by position and emit
    in lexicographic order of positions. *)

Section Combinatorics.
Context {A : Type}.

(** [itertools.combinations(pool, r)] *)
Fixpoint combinations (pool : list A) (r : nat) : list (list A) :=
  match r, pool with
  | O, _ => [[]]
  | S _, [] => []
  | S r', x :: pool' =>
      (cons x <$> combinations pool' r') ++ combinations pool' r
  end.

(** Every way of taking one element out of the pool: the element and
    what is left, by increasing position. *)
Fixpoint selections (pool : list A) : list (A * list A) :=
  match pool with
  | [] => []
  | x :: pool' =>
      (x, pool') :: ((λ s, (s.1, x :: s.2)) <$> selections pool')
  end.

(** [itertools.permutations(pool, r)] *)
Fixpoint permutations (pool : list A) (r : nat) : list (list A) :=
  match r with
  | O => [[]]
  | S r' => s ← selections pool; cons s.1 <$> permutations s.2 r'
  end.

(** What is handed to a function as its [iterable]: a container that
    can be traversed again and again (a list, a string), or an iterator
    that can be traversed once (a generator). *)
Inductive source : Type :=
| Sequence (items : list A)
| Iterator (remaining : list A).

Definition contents (src : source) : list A :=
  match src with
  | Sequence items => items
  | Iterator remaining => remaining
  end.

(** [list(iterable)]: the list, and the source afterwards. *)
Definition materialize (src : source) : list A * source :=
  match src with
  | Sequence items => (items, Sequence items)
  | Iterator remaining => (remaining, Iterator [])
  end.

(** [xrange(1, len(iterable)+1)] *)
Definition sizes (items : list A) : list nat := seq 1 (length items).

(** [powerset(iterable)], run to its end: the generator and the source
    it leaves behind. *)
Definition powerset (iterable : source) : gen (list A) * source :=
  let '(items, iterable') := materialize iterable in
  (generator (Gen (r ← sizes items; combinations items r) None),
   iterable').

(** [all_permutations(iterable)], likewise. *)
Definition all_permutations (iterable : source)
  : gen (list A) * source :=
  let '(items, iterable') := materialize iterable in
  (generator (Gen (r ← sizes items; permutations items r) None),
   iterable').

End Combinatorics.
Global Arguments source A : clear implicits.

(** ** The word finder *)

(** [''.join(x)] *)
Definition join (x : list string) : string := String.concat "" x.

(** [{''.join(x) for x in all_permutations(letters)} & dictionary] *)
Definition valid_words (letters : list string) (dictionary : gset string)
  : outcome (gset string) :=
  let candidates := (all_permutations (Sequence letters)).1 in
  match failure candidates with
  | Some e => Raise e
  | None => Ok (list_to_set (join <$> yielded candidates) ∩ dictionary)
  end.

(** ** Vocabulary of the properties *)

(** The pairs of neighbours of a source. *)
Definition neighbours {A} (xs : list A) : list (list A) :=
  (λ i, take 2 (drop i xs)) <$> seq 0 (length xs - 1).

(** The runs of [x :: rest] when [buffer] holds the elements of the open
    run that precede [x]. *)
Fixpoint runs_from (buffer : list Z) (x : Z) (rest : list Z)
    : list (list Z) :=
  match rest with
  | [] => [buffer ++ [x]]
  | y :: rest' =>
      if (y - x >? 1)%Z
      then (buffer ++ [x]) :: runs_from [] y rest'
      else runs_from (buffer ++ [x]) y rest'
  end.

(** Each element of the run is the previous one plus one. *)
Definition consecutive (run : list Z) : Prop :=
  ∀ i a b, run !! i = Some a → run !! S i = Some b → (b - a = 1)%Z.

(** Between the end of a run and the start of the next one there is a
    jump of more than one. *)
Definition separated (runs : list (list Z)) : Prop :=
  ∀ i r1 r2, runs !! i = Some r1 → runs !! S i = Some r2 →
    ∃ a b, last r1 = Some a ∧ head r2 = Some b ∧ (b - a > 1)%Z.

(** The token of a run: its only element in decimal, or its first and
    last elements in decimal around a dash. *)
Definition token_of (run : list Z) (token : string) : Prop :=
  (∀ x, run = [x] → token = fmt_d x)
  ∧ (1 < length run →
     ∃ a b, head run = Some a ∧ last run = Some b
            ∧ token = fmt_d a +:+ "-" +:+ fmt_d b).

(** [xs] is the tuple of the items found at the positions [idx], in
    that order. *)
Definition picked {A} (items : list A) (idx : list nat) (xs : list A)
  : Prop :=
  Forall2 (λ i x, items !! i = Some x) idx xs.

(** How many neighbours in [x :: rest] are more than one apart. *)
Fixpoint jumps_from (x : Z) (rest : list Z) : nat :=
  match rest with
  | [] => 0
  | y :: rest' => (if (y - x >? 1)%Z then 1 else 0) + jumps_from y rest'
  end.

Definition jumps (xs : list Z) : nat :=
  match xs with
  | [] => 0
  | x :: rest => jumps_from x rest
  end.

(** ** Finding a pattern in a string

    A [str] is the list of its characters.  In the default C locale the
    cased characters are the ASCII letters. *)

Definition is_lower_char (c : ascii) : bool :=
  (("a" <=? c) && (c <=? "z"))%char.

Definition is_upper_char (c : ascii) : bool :=
  (("A" <=? c) && (c <=? "Z"))%char.

(** [s.islower()]: no uppercase character and at least one lowercase. *)
Definition islower (s : list ascii) : bool :=
  forallb (λ c, negb (is_upper_char c)) s && existsb is_lower_char s.

(** [s.isupper()]: no lowercase character and at least one uppercase. *)
Definition isupper (s : list ascii) : bool :=
  forallb (λ c, negb (is_lower_char c)) s && existsb is_upper_char s.

(** The test every version of [find] applies to seven characters. *)
Definition matches (check : list ascii) : bool :=
  islower (take 3 check) && islower (drop 4 check)
  && isupper (take 1 (drop 3 check)).

(** The loop of the first [find] over the remaining indices. *)
Fixpoint find_slices_from (s : list ascii) (idxs : list nat)
    : option (list ascii) :=
  match idxs with
  | [] => None
  | idx :: idxs' =>
      let check := take 7 (drop idx s) in
      if matches check then Some check else find_slices_from s idxs'
  end.

(** The first [find(s)]: slices [s[idx:idx+7]] for [idx] in
    [xrange(len(s) - 6)], which is empty when [len(s) < 6]. *)
Definition find_slices (s : list ascii) : option (list ascii) :=
  find_slices_from s (seq 0 (length s - 6)).

(** Iterating over a [str] gives its characters as strings of length
    one. *)
Definition chars (s : list ascii) : list (list ascii) := (λ c, [c]) <$> s.

(** [''.join(x)] for a tuple of strings. *)
Definition joined (x : list (list ascii)) : list ascii := mjoin x.

Fixpoint first_match (substrs : list (list ascii)) : option (list ascii) :=
  match substrs with
  | [] => None
  | substr :: rest =>
      if matches substr then Some substr else first_match rest
  end.

(** The second [find(s)]: a loop over
    [map(lambda x: ''.join(x), pairwise(s, 7))]. *)
Definition find_pairwise (s : list ascii) : outcome (option (list ascii)) :=
  windows ← pairwise (chars s) 7;
  Ok (first_match (joined <$> windows)).

(** The third [find(s)]:
    [next((x for x in substrings if match(x)), None)] over [imap]. *)
Definition find_imap (s : list ascii) : outcome (option (list ascii)) :=
  windows ← pairwise (chars s) 7;
  Ok (head (filter (λ x, matches x) (joined <$> windows))).

(** ** The hand-written [zip], [map] and [filter] *)

Section Builtins.
Context {A : Type}.

(** The [while True] loop of [my_zip]: a round collects [next(x)] from
    every iterator; [StopIteration] in a round returns [rv].  [None] when
    the fuel runs out before the loop returns. *)
Fixpoint my_zip_loop (fuel : nat) (iterables : list (list A))
    (rv : list (list A)) : option (list (list A)) :=
  match fuel with
  | O => None
  | S fuel' =>
      match pull iterables with
      | None => Some rv
      | Some (val, iterables') => my_zip_loop fuel' iterables' (rv ++ [val])
      end
  end.

(** [my_zip], called with the iterables as its arguments. *)
Definition my_zip (fuel : nat) (iterables : list (list A))
  : option (list (list A)) :=
  my_zip_loop fuel iterables [].

Fixpoint my_map_loop {B} (func : list A → B) (zipped : list (list A))
    (rv : list B) : list B :=
  match zipped with
  | [] => rv
  | elements :: rest => my_map_loop func rest (rv ++ [func elements])
  end.

(** [my_map], called with [func] and the iterables as its arguments;
    [func] receives the unpacked [elements]. *)
Definition my_map {B} (func : list A → B) (iterables : list (list A))
  : list B :=
  my_map_loop func (izip iterables) [].

Fixpoint my_filter_loop (pred : A → bool) (iterable : list A)
    (rv : list A) : list A :=
  match iterable with
  | [] => rv
  | element :: rest =>
      if pred element then my_filter_loop pred rest (rv ++ [element])
      else my_filter_loop pred rest rv
  end.

(** [my_filter(pred, iterable)]; [truth] is the built-in [bool], used
    when [pred] is [None]. *)
Definition my_filter (truth : A → bool) (pred : option (A → bool))
    (iterable : list A) : list A :=
  let pred := match pred with None => truth | Some pred => pred end in
  my_filter_loop pred iterable [].

End Builtins.

(** ** Functions as values: firing and rewarding employees *)

(** The attributes of an employee the functions read or assign. *)
Record employee : Type := Employee {
  role : string;
  salary : Z;
  terminated : bool;
}.

(** [employee.terminated = True] *)
Definition set_terminated (e : employee) : employee :=
  Employee (role e) (salary e) true.

(** The inner functions [fire] may return. *)
Inductive firing : Type :=
| fire_employee
| noop.

(** Calling what [fire] returned on an employee. *)
Definition call_firing (f : firing) (e : employee) : employee :=
  match f with
  | fire_employee => set_terminated e
  | noop => e
  end.

(** What indexing the dictionary of [reward] gives: the employee after
    the call, or the [KeyError] of a missing key. *)
Inductive dispatched : Type :=
| Rewarded (e : employee)
| KeyError (key : string).

Section Employees.
(** [employee1 == employee2], which the tutorial leaves to the class of
    the employees, and [pat_on_back], which it does not define. *)
Context (same : employee → employee → bool).
Context (pat_on_back : employee → employee).

(** The first [can_fire], with [0] and [1]. *)
Definition can_fire_int (employee1 employee2 : employee) : Z :=
  if same employee1 employee2 then 0
  else if decide (role employee1 = "ceo") then 1
  else if decide (role employee1 = "manager"
                  ∧ role employee2 ≠ "manager") then 1
  else 0.

(** The second [can_fire], with [True] and [False]. *)
Definition can_fire (employee1 employee2 : employee) : bool :=
  if same employee1 employee2 then false
  else if decide (role employee1 = "ceo") then true
  else if decide (role employee1 = "manager"
                  ∧ role employee2 ≠ "manager") then true
  else false.

(** [fire(employee1, employee2)] *)
Definition fire (employee1 employee2 : employee) : firing :=
  if same employee1 employee2 then noop
  else if decide (role employee1 = "ceo") then fire_employee
  else if decide (role employee1 = "manager"
                  ∧ role employee2 ≠ "manager") then fire_employee
  else noop.

(** [employee.salary += amount], the [add_salary] of [pay_raise]. *)
Definition pay_raise (amount : Z) (e : employee) : employee :=
  Employee (role e) (salary e + amount) (terminated e).

(** The first [reward]: six [if] statements in a row. *)
Definition reward_ifs (e : employee) : employee :=
  let e := if decide (role e = "ceo") then pay_raise 1000000 e else e in
  let e := if decide (role e = "division director")
           then pay_raise 120000 e else e in
  let e := if decide (role e = "associate director")
           then pay_raise 90000 e else e in
  let e := if decide (role e = "senior manager")
           then pay_raise 45000 e else e in
  let e := if decide (role e = "manager") then pay_raise 20000 e else e in
  if decide (role e = "peon") then pat_on_back e else e.

(** The dictionary of the second [reward]. *)
Definition incentives : gmap string (employee → employee) :=
  <["ceo" := pay_raise 1000000]>
  (<["division director" := pay_raise 120000]>
  (<["associate director" := pay_raise 90000]>
  (<["senior manager" := pay_raise 45000]>
  (<["manager" := pay_raise 20000]>
  (<["peon" := pat_on_back]> ∅))))).

(** The second [reward]: [incentives[employee.role](employee)]. *)
Definition reward_dispatch (e : employee) : dispatched :=
  match incentives !! role e with
  | Some incentive => Rewarded (incentive e)
  | None => KeyError (role e)
  end.

End Employees.

(** The roles the two versions of [reward] know. *)
Definition known_roles : list string :=
  ["ceo"; "division director"; "associate director"; "senior manager";
   "manager"; "peon"].

(** ** Documenting decorators *)

(** What the decorators read and assign of a function object. *)
Record pyfunc : Type := PyFunc {
  func_name : string;
  func_doc : option string;
}.

(** The line feed of ['\n']. *)
Definition newline : string := String (ascii_of_nat 10) EmptyString.

(** [document] applied to its lines and then to [func]:
    [func.__doc__ = '\n'.join([func.__doc__ or ''] + list(lines))]. *)
Definition document (lines : list string) (func : pyfunc) : pyfunc :=
  PyFunc (func_name func)
    (Some (String.concat newline (default "" (func_doc func) :: lines))).

Definition precondition (lines : list string) : pyfunc → pyfunc :=
  document ((λ x, "precondition: " +:+ x) <$> lines).

Definition postcondition (lines : list string) : pyfunc → pyfunc :=
  document ((λ x, "postcondition: " +:+ x) <$> lines).

(** [root], decorated as in the tutorial: the decorator nearest to the
    [def] is applied first. *)
Definition root : pyfunc :=
  postcondition ["retval > 0"]
    (precondition ["x >= 0"]
       (document ["assumes IEEE-754 floating point arithmetic"]
          (PyFunc "root" None))).

(** ** Market scenarios *)

Section Market.
(** Prices are only ever passed to the shift functions. *)
Context {P : Type}.

Record Stock : Type := MkStock {
  ticker : string;
  sector : string;
  price : P;
  volume : Z;
}.

(** [MarketScenario(stocks, shifts).__enter__()], the stocks the [with]
    statement binds. *)
Definition MarketScenario_enter (stocks : list Stock)
    (shifts : gmap string (P → P)) : list Stock :=
  (λ s, MkStock (ticker s) (sector s)
          (default id (shifts !! sector s) (price s)) (volume s))
  <$> stocks.

End Market.
Global Arguments Stock P : clear implicits.

(** ** Checks against the assertions of the tutorial *)

Example pairwise_3 :
  pairwise [1; 2; 3; 4; 5]%Z 3 = Ok [[1; 2; 3]; [2; 3; 4]; [3; 4; 5]]%Z.
Proof. reflexivity. Qed.

Example contiguous_assert :
  contiguous [1; 2; 3; 5; 10; 11; 12; 17]%Z
  = Gen [[1; 2; 3]; [5]; [10; 11; 12]; [17]]%Z None.
Proof. reflexivity. Qed.

Example combinations_assert :
  combinations ["a"; "b"; "c"; "d"] 2
  = [["a"; "b"]; ["a"; "c"]; ["a"; "d"]; ["b"; "c"]; ["b"; "d"];
     ["c"; "d"]].
Proof. reflexivity. Qed.

Example permutations_assert :
  join <$> permutations ["a"; "b"; "c"; "d"] 4
  = ["abcd"; "abdc"; "acbd"; "acdb"; "adbc"; "adcb";
     "bacd"; "badc"; "bcad"; "bcda"; "bdac"; "bdca";
     "cabd"; "cadb"; "cbad"; "cbda"; "cdab"; "cdba";
     "dabc"; "dacb"; "dbac"; "dbca"; "dcab"; "dcba"].
Proof. reflexivity. Qed.

Example permutations_2_assert :
  join <$> permutations ["a"; "b"; "c"; "d"] 2
  = ["ab"; "ac"; "ad"; "ba"; "bc"; "bd"; "ca"; "cb"; "cd"; "da"; "db";
     "dc"].
Proof. reflexivity. Qed.

(** ** Windows *)

Section Windows.
Context {A : Type}.
Implicit Types (xs it : list A) (i n m : nat).

Lemma advance_drop i it :
  i ≤ length it → advance i it = Ok (drop i it).
Proof.
  revert it. induction i as [|i IH]; intros [|x it] Hi; simpl in *;
    try done; try lia.
  apply IH. lia.
Qed.

Lemma advance_exhausted i it :
  length it < i → advance i it = Raise StopIteration.
Proof.
  revert it. induction i as [|i IH]; intros [|x it] Hi; simpl in *;
    try done; try lia.
  apply IH. lia.
Qed.

(** Staggering [m] copies: copy number [j] has dropped [j] elements. *)
Lemma stagger_replicate m i xs :
  m = 0 ∨ i + m ≤ S (length xs) →
  stagger i (replicate m xs) = Ok ((λ j, drop j xs) <$> seq i m).
Proof.
  revert i. induction m as [|m IH]; intros i Hm; simpl; [done|].
  rewrite advance_drop by lia. simpl.
  rewrite IH by lia. done.
Qed.

Lemma stagger_exhausted m i xs :
  0 < m → S (length xs) < i + m →
  stagger i (replicate m xs) = Raise StopIteration.
Proof.
  revert i. induction m as [|m IH]; intros i Hm Hi; simpl; [lia|].
  destruct (decide (i ≤ length xs)) as [Hle|Hgt].
  - rewrite advance_drop by done. simpl.
    rewrite IH by lia. done.
  - rewrite advance_exhausted by lia. done.
Qed.

Lemma pull_drops m i xs :
  i + m ≤ length xs →
  pull ((λ j, drop j xs) <$> seq i m)
  = Some (take m (drop i xs), (λ j, drop j xs) <$> seq (S i) m).
Proof.
  revert i. induction m as [|m IH]; intros i Hm; simpl; [done|].
  destruct (drop i xs) as [|x it] eqn:Hd.
  { apply (f_equal length) in Hd. rewrite length_drop in Hd.
    simpl in Hd. lia. }
  assert (drop (S i) xs = it) as Hit.
  { rewrite <-Nat.add_1_r, <-drop_drop, Hd. done. }
  rewrite IH by lia. simpl. rewrite Hit. done.
Qed.

Lemma pull_drops_short m xs :
  length xs < m → pull ((λ j, drop j xs) <$> seq 0 m) = None.
Proof.
  intros Hm.
  assert (∀ k i, i ≤ length xs < i + k →
    pull ((λ j, drop j xs) <$> seq i k) = None) as Hgen.
  { induction k as [|k IH]; intros i Hk; simpl; [lia|].
    destruct (drop i xs) as [|x it] eqn:Hd; [done|].
    apply (f_equal length) in Hd. rewrite length_drop in Hd.
    simpl in Hd. rewrite IH by lia. done. }
  apply Hgen. lia.
Qed.

(** Zipping a source with its [n] successive shifts. *)
Lemma izip_from_shifts n xs :
  izip_from xs ((λ j, drop j xs) <$> seq 1 n)
  = (λ i, take (S n) (drop i xs)) <$> seq 0 (length xs - n).
Proof.
  induction xs as [|x xs IH]; simpl; [done|].
  rewrite <-fmap_S_seq, <-list_fmap_compose.
  change ((λ j, drop j (x :: xs)) ∘ S) with (λ j, drop j xs).
  destruct (decide (n ≤ length xs)) as [Hle|Hgt].
  - rewrite pull_drops by done. rewrite IH.
    replace (S (length xs) - n) with (S (length xs - n)) by lia.
    simpl. f_equal.
    rewrite <-fmap_S_seq, <-list_fmap_compose. done.
  - rewrite pull_drops_short by lia.
    replace (S (length xs) - n) with 0 by lia. done.
Qed.

(** The windows of size [n], [1 ≤ n ≤ L + 1], of a source of length
    [L]: one per start position [0 .. L - n], each the [n] elements
    from that position on. *)
Lemma pairwise_windows xs (n : Z) :
  (1 ≤ n ≤ Z.of_nat (length xs) + 1)%Z →
  pairwise xs n
  = Ok ((λ i, take (Z.to_nat n) (drop i xs))
          <$> seq 0 (length xs + 1 - Z.to_nat n)).
Proof.
  intros Hn. unfold pairwise, tee.
  destruct (Z.ltb_spec n 0) as [?|_]; [lia|]. simpl.
  destruct (Z.to_nat n) as [|m] eqn:Hm; [lia|].
  rewrite stagger_replicate by lia. simpl.
  rewrite drop_0, izip_from_shifts. do 3 f_equal. lia.
Qed.

(** For [1 ≤ n ≤ L] there are [L - n + 1] windows, and the window at
    index [i] holds the elements at positions [i .. i + n - 1]. *)
Lemma pairwise_window_at xs (n : Z) :
(1 ≤ n ≤ Z.of_nat (length xs))%Z →
∃ ws, pairwise xs n = Ok ws
      ∧ length ws = length xs - Z.to_nat n + 1
      ∧ ∀ i, i < length ws →
          ws !! i = Some (take (Z.to_nat n) (drop i xs))
          ∧ ∀ k, k < Z.to_nat n →
              take (Z.to_nat n) (drop i xs) !! k = xs !! (i + k).
Proof.
intros Hn. eexists. split; [apply pairwise_windows; lia|].
rewrite length_fmap, length_seq. split; [lia|].
intros i Hi. split.
- rewrite list_lookup_fmap, lookup_seq_lt by done. done.
- intros k Hk. by rewrite lookup_take_lt, lookup_drop.
Qed.

End Windows.

(** ** Runs *)

Lemma generator_yielded {A} (body : gen A) :
  yielded (generator body) = yielded body.
Proof. by destruct body as [ys [[]|]]. Qed.

Lemma generator_failure {A} (body : gen A) :
  failure (generator body) ≠ Some StopIteration.
Proof. by destruct body as [ys [[]|]]. Qed.

Lemma generator_no_stop {A} (body : gen A) :
  failure body ≠ Some StopIteration → generator body = body.
Proof. by destruct body as [ys [[]|]]. Qed.

Lemma neighbours_cons {A} (x y : A) rest :
  neighbours (x :: y :: rest) = [x; y] :: neighbours (y :: rest).
Proof.
  unfold neighbours. simpl. rewrite Nat.sub_0_r. f_equal.
  rewrite <-fmap_S_seq, <-list_fmap_compose. done.
Qed.

Lemma pairwise_neighbours {A} (x : A) rest :
  pairwise (x :: rest) 2 = Ok (neighbours (x :: rest)).
Proof.
  rewrite pairwise_windows by (simpl; lia).
  unfold neighbours. do 3 f_equal. simpl. lia.
Qed.

(** From the second pair on, [y] is bound to the element the open run
    still lacks. *)
Lemma contiguous_loop_runs rest x buffer y :
  (rest = [] → y = Some x) →
  contiguous_loop (neighbours (x :: rest)) buffer y
  = Gen (runs_from buffer x rest) None.
Proof.
  revert x buffer y. induction rest as [|x' rest IH]; intros x buffer y Hy.
  - rewrite Hy by done. done.
  - rewrite neighbours_cons. simpl.
    destruct (x' - x >? 1)%Z; rewrite IH by done; done.
Qed.

Lemma contiguous_empty : contiguous [] = Gen [] None.
Proof. reflexivity. Qed.

Lemma contiguous_single x : contiguous [x] = Gen [] (Some UnboundLocalError).
Proof. reflexivity. Qed.

Lemma contiguous_runs x y rest :
  contiguous (x :: y :: rest) = Gen (runs_from [] x (y :: rest)) None.
Proof.
  unfold contiguous. rewrite pairwise_neighbours.
  rewrite contiguous_loop_runs by done. done.
Qed.

Lemma runs_from_concat buffer x rest :
  concat (runs_from buffer x rest) = buffer ++ x :: rest.
Proof.
  revert buffer x. induction rest as [|y rest IH]; intros buffer x; simpl.
  - by rewrite app_nil_r.
  - destruct (y - x >? 1)%Z; simpl; rewrite IH.
    + by rewrite <-app_assoc.
    + by rewrite <-app_assoc.
Qed.

Lemma runs_from_head buffer x rest :
  ∃ run runs, runs_from buffer x rest = run :: runs
              ∧ head run = head (buffer ++ [x]).
Proof.
  revert buffer x. induction rest as [|y rest IH]; intros buffer x; simpl.
  - eauto.
  - destruct (y - x >? 1)%Z; [eauto|].
    destruct (IH (buffer ++ [x]) y) as (run & runs & -> & Hh).
    exists run, runs. split; [done|]. rewrite Hh.
    by destruct buffer.
Qed.

Lemma consecutive_snoc run x y :
  consecutive (run ++ [x]) → (y - x = 1)%Z →
  consecutive ((run ++ [x]) ++ [y]).
Proof.
  intros Hrun Hxy i a b Ha Hb.
  destruct (decide (S i < length (run ++ [x]))) as [Hlt|Hge].
  - rewrite lookup_app_l in Ha by lia. rewrite lookup_app_l in Hb by lia.
    eauto.
  - apply lookup_lt_Some in Hb as Hi. rewrite !length_app in *. simpl in *.
    assert (i = length run) as -> by lia.
    rewrite lookup_app_l, list_lookup_middle in Ha
      by (rewrite ?length_app; simpl; lia).
    replace (S (length run)) with (length (run ++ [x])) in Hb
      by (rewrite length_app; simpl; lia).
    rewrite list_lookup_middle in Hb by done.
    by simplify_eq.
Qed.

Lemma runs_from_consecutive buffer x rest :
  Sorted Z.lt (x :: rest) → consecutive (buffer ++ [x]) →
  Forall consecutive (runs_from buffer x rest).
Proof.
  revert buffer x. induction rest as [|y rest IH]; intros buffer x Hs Hb;
    simpl.
  - by constructor.
  - apply Sorted_inv in Hs as [Hs Hxy]. apply HdRel_inv in Hxy.
    destruct (Z.gtb_spec (y - x) 1).
    + constructor; [done|]. apply IH; [done|].
      intros [|i] a b; simpl; [done|by rewrite lookup_nil].
    + apply IH; [done|]. apply consecutive_snoc; [done|lia].
Qed.

Lemma runs_from_separated buffer x rest :
  separated (runs_from buffer x rest).
Proof.
  revert buffer x. induction rest as [|y rest IH]; intros buffer x; simpl.
  - intros [|i] r1 r2 ? Hr2; simplify_eq/=.
  - destruct (Z.gtb_spec (y - x) 1) as [Hgap|_]; [|apply IH].
    intros [|i] r1 r2 Hr1 Hr2; simplify_eq/=.
    + destruct (runs_from_head [] y rest) as (run & runs & Heq & Hh).
      rewrite Heq in Hr2. simplify_eq/=.
      exists x, y. rewrite last_snoc. split_and!; [done|done|lia].
    + by eapply IH.
Qed.

(** On a strictly increasing source of two or more elements, [contiguous]
    ends normally and its runs partition the source into maximal blocks
    of consecutive integers. *)
Lemma contiguous_partition (xs : list Z) :
  2 ≤ length xs → Sorted Z.lt xs →
  failure (contiguous xs) = None
  ∧ concat (yielded (contiguous xs)) = xs
  ∧ Forall consecutive (yielded (contiguous xs))
  ∧ separated (yielded (contiguous xs)).
Proof.
  intros Hlen Hs. destruct xs as [|x [|y rest]]; simpl in Hlen; try lia.
  rewrite contiguous_runs. simpl. split_and!.
  - done.
  - apply (runs_from_concat [] x (y :: rest)).
  - apply (runs_from_consecutive [] x (y :: rest)); [done|].
    intros [|i] a b; simpl; [done|by rewrite lookup_nil].
  - apply (runs_from_separated [] x (y :: rest)).
Qed.

(** ** Range tokens *)

Lemma contiguous_loop_nonempty pairs buffer y :
  Forall (λ run, run ≠ []) (yielded (contiguous_loop pairs buffer y)).
Proof.
  revert buffer y. induction pairs as [|xy pairs IH]; intros buffer y; simpl.
  - destruct y; simpl; [|done]. constructor; [|done]. by destruct buffer.
  - destruct xy as [|x [|x' [|? ?]]]; simpl; try done.
    destruct (x' - x >? 1)%Z; simpl; [|done].
    constructor; [|done]. by destruct buffer.
Qed.

Lemma contiguous_nonempty xs :
  Forall (λ run, run ≠ []) (yielded (contiguous xs)).
Proof.
  unfold contiguous. rewrite generator_yielded.
  destruct (pairwise xs 2); [apply contiguous_loop_nonempty|done].
Qed.

Lemma getitem_first {A} (x : A) l : getitem (x :: l) 0 = Ok x.
Proof. reflexivity. Qed.

Lemma getitem_last {A} (l : list A) b :
  last l = Some b → getitem l (-1) = Ok b.
Proof.
  intros Hb. unfold getitem. simpl.
  assert (0 < length l) by (destruct l; simpl; [done|lia]).
  destruct (Z.ltb_spec (-1 + Z.of_nat (length l)) 0) as [?|_]; [lia|].
  replace (Z.to_nat (-1 + Z.of_nat (length l))) with (pred (length l))
    by lia.
  by rewrite <-last_lookup, Hb.
Qed.

Lemma range_token_ok run :
  run ≠ [] → ∃ token, range_token run = Ok token ∧ token_of run token.
Proof.
  intros Hne. destruct run as [|a [|a' run]]; [done| |].
  - exists (fmt_d a). split; [done|]. split.
    + by intros ? [= <-].
    + simpl. lia.
  - destruct (last (a :: a' :: run)) as [b|] eqn:Hb.
    2:{ by apply last_None in Hb. }
    exists (fmt_d_d a b). split.
    + unfold range_token. rewrite decide_False by (simpl; lia).
      rewrite getitem_first. simpl. by rewrite (getitem_last _ b).
    + split; [done|]. intros _. by exists a, b.
Qed.

Lemma to_ranges_loop_tokens runs ending :
  Forall (λ run, run ≠ []) runs →
  ∃ tokens, to_ranges_loop runs ending = Gen tokens ending
            ∧ Forall2 token_of runs tokens.
Proof.
  induction 1 as [|run runs Hrun _ (tokens & Hloop & Htok)]; simpl.
  - by exists [].
  - destruct (range_token_ok run Hrun) as (token & -> & Hrt).
    exists (token :: tokens). rewrite Hloop. split; [done|].
    by constructor.
Qed.

(** ** Combinations *)

Section CombinationsFacts.
Context {A : Type}.
Implicit Types (pool c : list A) (r : nat).

Lemma combinations_zero pool : combinations pool 0 = [[]].
Proof. by destruct pool. Qed.

(** The combinations of size [r] are the order-preserving selections
    of [r] positions of the pool. *)
Lemma elem_of_combinations pool r c :
  c ∈ combinations pool r ↔ c `sublist_of` pool ∧ length c = r.
Proof.
  revert r c. induction pool as [|x pool IH]; intros [|r] c; simpl.
  - rewrite list_elem_of_singleton, sublist_nil_r.
    split; [by intros ->|by intros [-> _]].
  - rewrite elem_of_nil, sublist_nil_r. split; [done|].
    by intros [-> ?].
  - rewrite list_elem_of_singleton. split.
    + intros ->. split; [apply sublist_nil_l|done].
    + intros [_ ?]. by apply nil_length_inv.
  - rewrite elem_of_app, list_elem_of_fmap, IH, sublist_cons_r. split.
    + intros [(c' & -> & Hc')|[Hsub Hlen]].
      * apply IH in Hc' as [Hsub Hlen]. split; [|by simpl; f_equal].
        right. by exists c'.
      * split; [by left|done].
    + intros [[Hsub|(c' & -> & Hsub)] Hlen].
      * by right.
      * left. exists c'. split; [done|]. apply IH. split; [done|].
        simpl in Hlen. lia.
Qed.

Lemma combinations_too_large pool r :
  length pool < r → combinations pool r = [].
Proof.
  revert r. induction pool as [|x pool IH]; intros [|r] Hr; simpl in *;
    try lia; [done|].
  rewrite !IH by lia. done.
Qed.

(** How many combinations there are of each size below [k]. *)
Lemma combinations_count_step x pool k :
  length (seq 0 (S k) ≫= combinations (x :: pool))
  = length (seq 0 k ≫= combinations pool)
    + length (seq 0 (S k) ≫= combinations pool).
Proof.
  induction k as [|k IH].
  - simpl. by rewrite combinations_zero.
  - rewrite (seq_S (S k)), !bind_app, !length_app, !bind_singleton, IH.
    rewrite (seq_S k), !bind_app, !length_app, !bind_singleton. simpl.
    rewrite length_app, length_fmap. lia.
Qed.

Lemma combinations_count_all pool :
  length (seq 0 (S (length pool)) ≫= combinations pool)
  = 2 ^ length pool.
Proof.
  induction pool as [|x pool IH]; [done|].
  cbn [length]. rewrite combinations_count_step, IH.
  rewrite (seq_S (S (length pool))), bind_app, length_app, IH.
  rewrite bind_singleton, combinations_too_large by (simpl; lia).
  rewrite Nat.pow_succ_r'. simpl. lia.
Qed.

Lemma combinations_count_sizes pool :
  length (sizes pool ≫= combinations pool) = 2 ^ length pool - 1.
Proof.
  rewrite <-combinations_count_all. unfold sizes.
  change (seq 0 (S (length pool))) with (0 :: seq 1 (length pool)).
  rewrite bind_cons, length_app, combinations_zero. simpl. lia.
Qed.

(** The same positions picked in two pools give related tuples. *)
Lemma combinations_Forall2 {B} (R : A → B → Prop) pool (pool' : list B) r :
  Forall2 R pool pool' →
  Forall2 (Forall2 R) (combinations pool r) (combinations pool' r).
Proof.
  intros HR. revert r.
  induction HR as [|x y pool pool' Hxy _ IH]; intros [|r]; simpl.
  - by repeat constructor.
  - constructor.
  - by repeat constructor.
  - apply Forall2_app; [|apply IH].
    apply Forall2_fmap. eapply Forall2_impl; [apply IH|].
    intros ???. by constructor.
Qed.

End CombinationsFacts.

(** ** Permutations *)

Section PermutationsFacts.
Context {A : Type}.
Implicit Types (pool p : list A) (r : nat) (s : A * list A).

(** A selection takes one position out of the pool. *)
Lemma elem_of_selections pool s :
  s ∈ selections pool
  ↔ ∃ l1 l2, pool = l1 ++ s.1 :: l2 ∧ s.2 = l1 ++ l2.
Proof.
  revert s. induction pool as [|x pool IH]; intros s; simpl.
  - rewrite elem_of_nil. split; [done|].
    intros (l1 & l2 & Hp & _). by destruct l1.
  - rewrite elem_of_cons, list_elem_of_fmap. split.
    + intros [->|(s' & -> & Hs')].
      * by exists [], pool.
      * apply IH in Hs' as (l1 & l2 & -> & Hl). simpl.
        exists (x :: l1), l2. by rewrite Hl.
    + intros (l1 & l2 & Hp & Hl). destruct l1 as [|x' l1]; simplify_eq/=.
      * left. by destruct s; simplify_eq/=.
      * right. exists (s.1, l1 ++ l2). split.
        { by destruct s; simplify_eq/=. }
        apply IH. by exists l1, l2.
Qed.

Lemma length_selections pool : length (selections pool) = length pool.
Proof.
  induction pool as [|x pool IH]; simpl; [done|].
  by rewrite length_fmap, IH.
Qed.

Lemma selections_rest_length pool s :
  s ∈ selections pool → S (length s.2) = length pool.
Proof.
  intros (l1 & l2 & -> & ->)%elem_of_selections.
  rewrite !length_app. simpl. lia.
Qed.

Lemma selections_rest_sublist pool s :
  s ∈ selections pool → s.2 `sublist_of` pool.
Proof.
  intros (l1 & l2 & -> & ->)%elem_of_selections.
  apply sublist_app; [done|]. by apply sublist_cons_r; left.
Qed.

Lemma selections_Permutation pool s :
  s ∈ selections pool → pool ≡ₚ s.1 :: s.2.
Proof.
  intros (l1 & l2 & -> & ->)%elem_of_selections.
  by rewrite Permutation_middle.
Qed.

(** The permutations of size [r] are the arrangements of [r] distinct
    positions of the pool. *)
Lemma elem_of_permutations pool r p :
  p ∈ permutations pool r ↔ length p = r ∧ p ⊆+ pool.
Proof.
  revert pool p. induction r as [|r IH]; intros pool p; simpl.
  - rewrite list_elem_of_singleton. split.
    + intros ->. split; [done|apply submseteq_nil_l].
    + intros [Hlen _]. by apply nil_length_inv.
  - rewrite list_elem_of_bind. split.
    + intros (s & (p' & -> & Hp')%list_elem_of_fmap & Hs).
      apply IH in Hp' as [Hlen Hsub]. split; [by simpl; f_equal|].
      rewrite (selections_Permutation pool s) by done.
      by apply submseteq_skip.
    + intros [Hlen Hsub]. destruct p as [|x p]; [done|].
      apply submseteq_cons_l in Hsub as (k & Hk & Hsub).
      assert (x ∈ pool) as (l1 & l2 & ->)%list_elem_of_split.
      { rewrite Hk. by left. }
      exists (x, l1 ++ l2). split.
      * apply list_elem_of_fmap. exists p. split; [done|].
        apply IH. split; [by simplify_eq/=|].
        rewrite <-Permutation_middle in Hk.
        apply Permutation_cons_inv in Hk. by rewrite Hk.
      * apply elem_of_selections. by exists l1, l2.
Qed.

Lemma length_bind_scaled {B C} (f : B → list C) (l : list B) d m :
  (∀ x, x ∈ l → length (f x) * d = m) →
  length (l ≫= f) * d = length l * m.
Proof.
  induction l as [|x l IH]; intros Hf; [done|].
  rewrite bind_cons, length_app. simpl.
  rewrite Nat.mul_add_distr_r, IH, Hf.
  - done.
  - by left.
  - intros y Hy. apply Hf. by right.
Qed.

Lemma permutations_count_mul pool r :
  r ≤ length pool →
  length (permutations pool r) * fact (length pool - r)
  = fact (length pool).
Proof.
  revert pool. induction r as [|r IH]; intros pool Hr; simpl.
  - rewrite Nat.sub_0_r. lia.
  - rewrite (length_bind_scaled _ _ _ (fact (length pool - 1))).
    + rewrite length_selections.
      destruct (length pool) as [|n]; [lia|].
      simpl. rewrite Nat.sub_0_r. lia.
    + intros s Hs. apply selections_rest_length in Hs as Hlen.
      rewrite length_fmap.
      replace (length pool - S r) with (length s.2 - r) by lia.
      replace (length pool - 1) with (length s.2) by lia.
      apply IH. lia.
Qed.

(** There are [L! / (L - r)!] permutations of size [r]. *)
Lemma permutations_count pool r :
  r ≤ length pool →
  length (permutations pool r)
  = fact (length pool) / fact (length pool - r).
Proof.
  intros Hr. rewrite <-(permutations_count_mul pool r Hr).
  rewrite Nat.div_mul; [done|]. apply fact_neq_0.
Qed.

Lemma length_bind {B C} (f : B → list C) (l : list B) :
  length (l ≫= f) = sum_list (length ∘ f <$> l).
Proof.
  induction l as [|x l IH]; [done|].
  rewrite bind_cons, length_app, IH. done.
Qed.

Lemma permutations_count_sizes pool :
  length (sizes pool ≫= permutations pool)
  = sum_list ((λ r, fact (length pool) / fact (length pool - r))
                <$> sizes pool).
Proof.
  rewrite length_bind. f_equal. apply Forall_fmap_ext, Forall_forall.
  intros r [? ?]%elem_of_seq. simpl. apply permutations_count. lia.
Qed.

Lemma selections_Forall2 {B} (R : A → B → Prop) pool (pool' : list B) :
  Forall2 R pool pool' →
  Forall2 (λ u v, R u.1 v.1 ∧ Forall2 R u.2 v.2)
    (selections pool) (selections pool').
Proof.
  induction 1 as [|x y pool pool' Hxy HR IH]; simpl; constructor.
  - done.
  - apply Forall2_fmap. eapply Forall2_impl; [apply IH|].
    intros u v [? ?]. simpl. split; [done|by constructor].
Qed.

(** The same positions arranged in two pools give related tuples. *)
Lemma permutations_Forall2 {B} (R : A → B → Prop) pool (pool' : list B) r :
  Forall2 R pool pool' →
  Forall2 (Forall2 R) (permutations pool r) (permutations pool' r).
Proof.
  revert pool pool'. induction r as [|r IH]; intros pool pool' HR; simpl.
  - by repeat constructor.
  - apply Forall2_bind.
    eapply Forall2_impl; [by apply selections_Forall2|].
    intros u v [Hs1 Hs2]. apply Forall2_fmap.
    eapply Forall2_impl; [by apply IH|].
    intros ???. by constructor.
Qed.

End PermutationsFacts.

(** ** Generation order, on positions *)

Lemma lexico_cons_lt (i j : nat) (l k : list nat) :
  i < j → lexico (i :: l) (j :: k).
Proof. intros Hij. by left. Qed.

Lemma lexico_cons_eq (i : nat) (l k : list nat) :
  lexico l k → lexico (i :: l) (i :: k).
Proof. intros Hlk. by right. Qed.

Lemma sublist_StronglySorted {A} (R : relation A) (l k : list A) :
  l `sublist_of` k → StronglySorted R k → StronglySorted R l.
Proof.
  induction 1 as [|x l k Hsub IH|x l k Hsub IH]; intros Hk.
  - done.
  - apply StronglySorted_cons in Hk as [Hx Hk].
    apply StronglySorted_cons. split; [|by apply IH].
    rewrite Forall_forall in *. intros y Hy. apply Hx.
    by eapply elem_of_sublist.
  - apply StronglySorted_cons in Hk as [_ Hk]. by apply IH.
Qed.

Lemma StronglySorted_bind {B C} (R1 : relation B) (R2 : relation C)
    (f : B → list C) (l : list B) :
  StronglySorted R1 l →
  (∀ x, x ∈ l → StronglySorted R2 (f x)) →
  (∀ x y a b, R1 x y → a ∈ f x → b ∈ f y → R2 a b) →
  StronglySorted R2 (l ≫= f).
Proof.
  intros Hl Hf Hcross. induction Hl as [|x l Hl IH Hx]; [constructor|].
  rewrite bind_cons. apply StronglySorted_app_2.
  - intros a b Ha (y & Hb & Hy)%list_elem_of_bind.
    rewrite Forall_forall in Hx. eauto.
  - apply Hf. by left.
  - apply IH. intros y Hy. apply Hf. by right.
Qed.

(** Combinations of increasing positions come out in strictly increasing
    lexicographic order. *)
Lemma combinations_lexico (pool : list nat) r :
  StronglySorted lt pool → StronglySorted lexico (combinations pool r).
Proof.
  intros Hpool. revert r.
  induction Hpool as [|i pool Hpool IH Hi]; intros [|r]; simpl;
    try (by repeat constructor).
  apply StronglySorted_app_2.
  - intros c1 c2 (c & -> & _)%list_elem_of_fmap
      [Hsub Hlen]%elem_of_combinations.
    destruct c2 as [|j c2]; [done|]. apply lexico_cons_lt.
    rewrite Forall_forall in Hi. apply Hi.
    eapply elem_of_sublist; [|done]. by left.
  - eapply StronglySorted_fmap; [|apply IH].
    intros ??. apply lexico_cons_eq.
  - apply IH.
Qed.

Lemma selections_increasing (pool : list nat) :
  StronglySorted lt pool →
  StronglySorted (λ s s', s.1 < s'.1) (selections pool).
Proof.
  induction 1 as [|i pool Hpool IH Hi]; simpl; constructor.
  - eapply StronglySorted_fmap; [|done]. by intros ??.
  - rewrite Forall_fmap, Forall_forall. intros s Hs. simpl.
    rewrite Forall_forall in Hi. apply Hi.
    rewrite (selections_Permutation pool s) by done. by left.
Qed.

(** Permutations of increasing positions come out in strictly increasing
    lexicographic order. *)
Lemma permutations_lexico (pool : list nat) r :
  StronglySorted lt pool → StronglySorted lexico (permutations pool r).
Proof.
  revert pool. induction r as [|r IH]; intros pool Hpool; simpl.
  - by repeat constructor.
  - eapply StronglySorted_bind; [by apply selections_increasing| |].
    + intros s Hs. eapply StronglySorted_fmap.
      * intros ??. apply lexico_cons_eq.
      * apply IH. eapply sublist_StronglySorted; [|done].
        by apply selections_rest_sublist.
    + intros s s' p p' Hlt (q & -> & _)%list_elem_of_fmap
        (q' & -> & _)%list_elem_of_fmap.
      by apply lexico_cons_lt.
Qed.

Lemma seq_increasing j n : StronglySorted lt (seq j n).
Proof.
  revert j. induction n as [|n IH]; intros j; simpl; constructor.
  - apply IH.
  - apply Forall_seq. intros. lia.
Qed.

(** Position [i] of the pool holds the [i]-th item. *)
Lemma positions_items {A} (items : list A) :
  Forall2 (λ i x, items !! i = Some x) (seq 0 (length items)) items.
Proof.
  apply Forall2_same_length_lookup. split; [by rewrite length_seq|].
  intros k i x [-> _]%lookup_seq Hx. done.
Qed.

(** Strictly increasing tuples of positions below [L] are the sublists
    of [0 .. L-1]. *)
Lemma sublist_seq_increasing (idx : list nat) L :
  idx `sublist_of` seq 0 L → StronglySorted lt idx ∧ Forall (λ i, i < L) idx.
Proof.
  intros Hsub. split.
  - eapply sublist_StronglySorted; [done|apply seq_increasing].
  - apply Forall_forall. intros i Hi.
    eapply elem_of_sublist, elem_of_seq in Hi; [|done]. lia.
Qed.

(** Tuples of distinct positions below [L] are the arrangements of
    sublists of [0 .. L-1]. *)
Lemma submseteq_seq_distinct (idx : list nat) L :
  idx ⊆+ seq 0 L ↔ NoDup idx ∧ Forall (λ i, i < L) idx.
Proof.
  split.
  - intros Hsub. split.
    + destruct (submseteq_Permutation _ _ Hsub) as [k Hk].
      pose proof (NoDup_seq 0 L) as Hnd. rewrite Hk in Hnd.
      by apply NoDup_app in Hnd as [? _].
    + apply Forall_forall. intros i Hi.
      eapply elem_of_submseteq, elem_of_seq in Hi; [|done]. lia.
  - intros [Hnd Hlt]. apply NoDup_submseteq; [done|].
    intros i Hi. rewrite Forall_forall in Hlt. apply elem_of_seq.
    specialize (Hlt i Hi). simpl in Hlt. lia.
Qed.

(** * The properties of the specification *)

(** ** Windowing *)

(** C1.  The windows of a source of length [L] are as specified for
    window sizes [1 .. L + 1] (lemma [pairwise_windows]).  For a window
    size of [L + 2] or more the call does not return an empty sequence:
    while the copies are being staggered, [next] is called on a copy that
    has run dry and [pairwise] itself raises [StopIteration]. *)
Theorem pairwise_beyond_end_raises {A} (xs : list A) (n : Z) :
  (Z.of_nat (length xs) + 2 ≤ n)%Z →
  pairwise xs n = Raise StopIteration.
Proof.
  intros Hn. unfold pairwise, tee.
  destruct (Z.ltb_spec n 0) as [?|_]; [lia|]. simpl.
  rewrite stagger_exhausted by lia. done.
Qed.

Lemma pairwise_beyond_end_raises_witness :
  pairwise [7%Z] 3 = Raise StopIteration.
Proof. apply pairwise_beyond_end_raises. simpl. lia. Defined.

(** C8.  As stated, a window size below one always fails; here is a call
    with window size zero that returns the empty sequence. *)
Lemma pairwise_zero_returns :
  pairwise [1; 2; 3]%Z 0 = Ok []
  ∧ ∀ e, pairwise [1; 2; 3]%Z 0 ≠ Raise e.
Proof. split; [reflexivity|]. intros e. discriminate. Qed.

(** C8, amended.  A negative window size fails with the [ValueError] of
    [tee]; window size zero is accepted and gives the empty sequence. *)
Theorem pairwise_below_one {A} (xs : list A) (n : Z) :
  (n < 1)%Z →
  pairwise xs n = if (n =? 0)%Z then Ok [] else Raise ValueError.
Proof.
  intros Hn. unfold pairwise, tee.
  destruct (Z.eqb_spec n 0) as [->|Hn0]; [done|].
  destruct (Z.ltb_spec n 0) as [_|?]; [done|lia].
Qed.

Lemma pairwise_below_one_witness :
  pairwise [1; 2; 3]%Z (-1) = Raise ValueError.
Proof. apply (pairwise_below_one [1; 2; 3]%Z (-1)). lia. Defined.

(** ** Run grouping *)

(** C7.  A source of exactly one element yields no run at all: the pair
    stream is empty, so the loop never binds [y], and the final
    [yield buffer + [y]] fails with [UnboundLocalError]. *)
Theorem contiguous_single_fails (x : Z) :
  yielded (contiguous [x]) = []
  ∧ failure (contiguous [x]) = Some UnboundLocalError.
Proof. by rewrite contiguous_single. Qed.

(** C2.  On strictly increasing sources of two or more elements the runs
    partition the source as specified (lemma [contiguous_partition]), and
    so they do, vacuously, on the empty source.  On a source of one
    element nothing is yielded, so the concatenation of the runs is not
    the source. *)
Theorem contiguous_single_loses_element (x : Z) :
  Sorted Z.lt [x] ∧ concat (yielded (contiguous [x])) ≠ [x].
Proof. split; [by repeat constructor|]. by rewrite contiguous_single. Qed.

(** C10.  As stated, the empty source makes [contiguous] fail; it does
    not. *)
Lemma contiguous_empty_no_error :
  ¬ ∃ e, failure (contiguous []) = Some e.
Proof. rewrite contiguous_empty. by intros [e ?]. Qed.

(** C10, amended.  On the empty source [pairwise] raises [StopIteration]
    while it advances its second copy; inside the generator this ends the
    iteration before the loop and the final [yield] are reached, so
    [contiguous] yields no run and ends normally, without reading [y]. *)
Theorem contiguous_empty_yields_nothing :
  pairwise ([] : list Z) 2 = Raise StopIteration
  ∧ yielded (contiguous []) = []
  ∧ failure (contiguous []) = None.
Proof. by rewrite contiguous_empty. Qed.

(** ** Range formatting *)

(** C6.  [to_ranges] yields one token per run of [contiguous], in order:
    the decimal of the only element of a one-element run, the decimals of
    the first and of the last element around a dash for a longer run (no
    run is empty); it ends the way [contiguous] ends.  On
    [[1,2,3,5,10,11,12,17]] the tokens are ["1-3"], ["5"], ["10-12"],
    ["17"]. *)
Theorem to_ranges_tokens :
  (∀ xs : list Z,
     Forall2 token_of (yielded (contiguous xs)) (yielded (to_ranges xs))
     ∧ Forall (λ run, run ≠ []) (yielded (contiguous xs))
     ∧ failure (to_ranges xs) = failure (contiguous xs))
  ∧ to_ranges [1; 2; 3; 5; 10; 11; 12; 17]%Z
    = Gen ["1-3"; "5"; "10-12"; "17"] None.
Proof.
  split; [|reflexivity]. intros xs.
  pose proof (contiguous_nonempty xs) as Hne.
  destruct (to_ranges_loop_tokens _ (failure (contiguous xs)) Hne)
    as (tokens & Hloop & Htok).
  unfold to_ranges. cbn zeta. rewrite Hloop.
  rewrite generator_no_stop by apply generator_failure.
  done.
Qed.

(** ** Combinatorial enumeration *)

Lemma powerset_unfold {A} (iterable : source A) :
  powerset iterable
  = (Gen (r ← sizes (contents iterable); combinations (contents iterable) r)
       None,
     (materialize iterable).2).
Proof. by destruct iterable. Qed.

Lemma all_permutations_unfold {A} (iterable : source A) :
  all_permutations iterable
  = (Gen (r ← sizes (contents iterable); permutations (contents iterable) r)
       None,
     (materialize iterable).2).
Proof. by destruct iterable. Qed.

(** C3.  [powerset] ends normally after [2^L - 1] tuples, none of them
    empty.  They are, size after size for [r = 1 .. L], the items at the
    position tuples [combinations [0 .. L-1] r]; these are exactly the
    order-preserving selections of [r] positions, each strictly
    increasing, and they follow one another in strictly increasing
    lexicographic order.  On [['a','b','c']] the joined tuples are
    ["a"], ["b"], ["c"], ["ab"], ["ac"], ["bc"], ["abc"]. *)
Theorem powerset_enumeration :
  (∀ (A : Type) (iterable : source A),
     let items := contents iterable in
     let L := length items in
     let emitted := yielded (powerset iterable).1 in
     failure (powerset iterable).1 = None
     ∧ length emitted = 2 ^ L - 1
     ∧ Forall (λ x, x ≠ []) emitted
     ∧ Forall2 (picked items)
         (r ← seq 1 L; combinations (seq 0 L) r) emitted
     ∧ (∀ r idx, idx ∈ combinations (seq 0 L) r
                 ↔ idx `sublist_of` seq 0 L ∧ length idx = r)
     ∧ (∀ r, Forall (λ idx, StronglySorted lt idx ∧ Forall (λ i, i < L) idx)
               (combinations (seq 0 L) r))
     ∧ (∀ r, StronglySorted lexico (combinations (seq 0 L) r)))
  ∧ join <$> yielded (powerset (Sequence ["a"; "b"; "c"])).1
    = ["a"; "b"; "c"; "ab"; "ac"; "bc"; "abc"].
Proof.
  split; [|reflexivity]. intros A iterable items L emitted.
  subst emitted. rewrite powerset_unfold. fold items. simpl.
  split_and!.
  - done.
  - apply combinations_count_sizes.
  - apply Forall_bind, Forall_forall. intros r [Hr _]%elem_of_seq.
    apply Forall_forall. intros x [_ Hx]%elem_of_combinations.
    intros ->. simpl in Hx. lia.
  - apply Forall2_bind, Forall_Forall2_diag, Forall_forall. intros r _.
    apply combinations_Forall2, positions_items.
  - intros r idx. apply elem_of_combinations.
  - intros r. apply Forall_forall.
    intros idx [Hsub _]%elem_of_combinations.
    by apply sublist_seq_increasing.
  - intros r. apply combinations_lexico, seq_increasing.
Qed.

(** C4.  [all_permutations] ends normally after
    [L!/(L-1)! + ... + L!/(L-L)!] tuples.  They are, size after size for
    [r = 1 .. L], the items at the position tuples
    [permutations [0 .. L-1] r]; these are exactly the tuples of [r]
    distinct positions, and they follow one another in strictly
    increasing lexicographic order.  On [['a','b','c']] the joined tuples
    are the fifteen strings from ["a"] to ["cba"] of the tutorial. *)
Theorem all_permutations_enumeration :
  (∀ (A : Type) (iterable : source A),
     let items := contents iterable in
     let L := length items in
     let emitted := yielded (all_permutations iterable).1 in
     failure (all_permutations iterable).1 = None
     ∧ length emitted = sum_list ((λ r, fact L / fact (L - r)) <$> seq 1 L)
     ∧ Forall2 (picked items)
         (r ← seq 1 L; permutations (seq 0 L) r) emitted
     ∧ (∀ r idx, idx ∈ permutations (seq 0 L) r
                 ↔ length idx = r ∧ NoDup idx ∧ Forall (λ i, i < L) idx)
     ∧ (∀ r, StronglySorted lexico (permutations (seq 0 L) r)))
  ∧ join <$> yielded (all_permutations (Sequence ["a"; "b"; "c"])).1
    = ["a"; "b"; "c"; "ab"; "ac"; "ba"; "bc"; "ca"; "cb";
       "abc"; "acb"; "bac"; "bca"; "cab"; "cba"].
Proof.
  split; [|reflexivity]. intros A iterable items L emitted.
  subst emitted. rewrite all_permutations_unfold. fold items. simpl.
  split_and!.
  - done.
  - apply permutations_count_sizes.
  - apply Forall2_bind, Forall_Forall2_diag, Forall_forall. intros r _.
    apply permutations_Forall2, positions_items.
  - intros r idx. rewrite elem_of_permutations, submseteq_seq_distinct.
    done.
  - intros r. apply permutations_lexico, seq_increasing.
Qed.

(** C9.  As stated, a single-pass input is rejected; here a generator of
    three letters is enumerated, by both functions, without any
    failure. *)
Lemma single_pass_source_enumerated :
  powerset (Iterator ["a"; "b"; "c"])
  = (Gen [["a"]; ["b"]; ["c"]; ["a"; "b"]; ["a"; "c"]; ["b"; "c"];
          ["a"; "b"; "c"]] None,
     Iterator [])
  ∧ failure (all_permutations (Iterator ["a"; "b"; "c"])).1 = None
  ∧ length (yielded (all_permutations (Iterator ["a"; "b"; "c"])).1) = 15.
Proof. split_and!; reflexivity. Qed.

(** C9, amended.  Both functions first turn their input into a list,
    which leaves a container as it is and a single-pass iterator used up;
    whatever the kind of input, they then enumerate that list exactly as
    they enumerate a container holding the same elements, and raise
    nothing. *)
Theorem enumerators_materialize {A} (iterable : source A) :
  let items := (materialize iterable).1 in
  items = contents iterable
  ∧ (powerset iterable).2 = (materialize iterable).2
  ∧ (all_permutations iterable).2 = (materialize iterable).2
  ∧ (powerset iterable).1 = (powerset (Sequence items)).1
  ∧ (all_permutations iterable).1 = (all_permutations (Sequence items)).1
  ∧ failure (powerset iterable).1 = None
  ∧ failure (all_permutations iterable).1 = None
  ∧ (materialize iterable).2
    = match iterable with
      | Sequence _ => iterable
      | Iterator _ => Iterator []
      end.
Proof. destruct iterable; simpl; split_and!; done. Qed.

(** ** Word finder *)

(** C5.  The word finder returns a set, hence without duplicates; it is
    included in the dictionary, and its elements are exactly the
    dictionary words obtained by joining an arrangement of some, at least
    one, of the letters, each letter used at most as often as it is
    given. *)
Theorem valid_words_sound (letters : list string) (dictionary : gset string) :
  ∃ words : gset string,
    valid_words letters dictionary = Ok words
    ∧ words ⊆ dictionary
    ∧ (∀ w, w ∈ words
            ↔ w ∈ dictionary
              ∧ ∃ p, p ≠ [] ∧ p ⊆+ letters ∧ w = join p)
    ∧ NoDup (elements words).
Proof.
  unfold valid_words. rewrite all_permutations_unfold. simpl.
  eexists. split; [done|]. split_and!.
  - apply intersection_subseteq_r.
  - intros w. rewrite elem_of_intersection, elem_of_list_to_set,
      list_elem_of_fmap.
    split; intros [Hw Hd]; (split; [|done]) || (split; [done|]).
    + destruct Hw as (p & -> & (r & Hp & Hr)%list_elem_of_bind).
      apply elem_of_permutations in Hp as [Hlen Hsub].
      apply elem_of_seq in Hr. exists p. split_and!; [|done..].
      intros ->. simpl in Hlen. lia.
    + destruct Hd as (p & Hne & Hsub & ->). exists p. split; [done|].
      apply list_elem_of_bind. exists (length p). split.
      * by apply elem_of_permutations.
      * apply elem_of_seq. apply submseteq_length in Hsub.
        destruct p; [done|]. simpl in *. lia.
  - apply NoDup_elements.
Qed.


(** * Further properties of the code *)

(** ** Windows within the source *)

(** X1.  For a window size [n] with [1 ≤ n ≤ L + 1], [pairwise] returns
    [L + 1 - n] windows; each has [n] elements, and element [k] of the
    window at index [i] is element [i + k] of the source. *)
Theorem pairwise_windows_within {A} (xs : list A) (n : Z) :
  (1 ≤ n ≤ Z.of_nat (length xs) + 1)%Z →
  ∃ ws, pairwise xs n = Ok ws
        ∧ length ws = length xs + 1 - Z.to_nat n
        ∧ Forall (λ w, length w = Z.to_nat n) ws
        ∧ ∀ i w, ws !! i = Some w →
            ∀ k, k < Z.to_nat n → w !! k = xs !! (i + k).
Proof.
  intros Hn. eexists. split; [by apply pairwise_windows|].
  rewrite length_fmap, length_seq. split_and!.
  - done.
  - apply Forall_fmap, Forall_seq. intros i Hi. simpl.
    rewrite length_take, length_drop. lia.
  - intros i w Hw k Hk.
    apply list_lookup_fmap_Some in Hw as (j & -> & [-> _]%lookup_seq).
    by rewrite lookup_take_lt, lookup_drop.
Qed.

Lemma pairwise_windows_within_witness :
  ∃ ws, pairwise [1; 2; 3]%Z 2 = Ok ws
        ∧ length ws = 2
        ∧ Forall (λ w, length w = 2) ws
        ∧ ∀ i w, ws !! i = Some w →
            ∀ k, k < 2 → w !! k = [1; 2; 3]%Z !! (i + k).
Proof. apply (pairwise_windows_within [1; 2; 3]%Z 2). simpl. lia. Defined.

(** ** Runs of arbitrary sources *)

Lemma runs_from_length buffer x rest :
  length (runs_from buffer x rest) = S (jumps_from x rest).
Proof.
  revert buffer x. induction rest as [|y rest IH]; intros buffer x; simpl.
  - done.
  - destruct (y - x >? 1)%Z; simpl; by rewrite IH.
Qed.

(** X2.  On a strictly increasing source of two or more elements
    [contiguous] ends normally; its runs, none of them empty, concatenate
    to the source, each run steps by exactly one, and between a run and
    the next the step is larger than one. *)
Theorem contiguous_sorted_partition (xs : list Z) :
  2 ≤ length xs → Sorted Z.lt xs →
  failure (contiguous xs) = None
  ∧ concat (yielded (contiguous xs)) = xs
  ∧ Forall (λ run, run ≠ [] ∧ consecutive run) (yielded (contiguous xs))
  ∧ separated (yielded (contiguous xs)).
Proof.
  intros Hlen Hs.
  destruct (contiguous_partition xs Hlen Hs) as (Hf & Hc & Hr & Hsep).
  split_and!; try done.
  apply Forall_and. split; [apply contiguous_nonempty|done].
Qed.

Lemma contiguous_sorted_partition_witness :
  failure (contiguous [1; 2; 4]%Z) = None
  ∧ concat (yielded (contiguous [1; 2; 4]%Z)) = [1; 2; 4]%Z
  ∧ Forall (λ run, run ≠ [] ∧ consecutive run)
      (yielded (contiguous [1; 2; 4]%Z))
  ∧ separated (yielded (contiguous [1; 2; 4]%Z)).
Proof.
  apply (contiguous_sorted_partition [1; 2; 4]%Z).
  - simpl. lia.
  - repeat constructor; lia.
Defined.

(** X3.  [contiguous] and [to_ranges] fail on sources of exactly one
    element, with [UnboundLocalError], and on no other source, sorted or
    not. *)
Theorem contiguous_fails_only_on_single (xs : list Z) :
  failure (contiguous xs)
  = (if decide (length xs = 1) then Some UnboundLocalError else None)
  ∧ failure (to_ranges xs) = failure (contiguous xs).
Proof.
  split.
  - destruct xs as [|x [|y rest]].
    + by rewrite contiguous_empty.
    + by rewrite contiguous_single.
    + by rewrite contiguous_runs.
  - pose proof (contiguous_nonempty xs) as Hne.
    destruct (to_ranges_loop_tokens _ (failure (contiguous xs)) Hne)
      as (tokens & Hloop & _).
    unfold to_ranges. cbn zeta. rewrite Hloop.
    by rewrite generator_no_stop by apply generator_failure.
Qed.

(** X4.  Sortedness is not needed for the grouping itself: on any source
    of two or more elements the runs concatenate to the source, and there
    is one run more than there are neighbours more than one apart (so a
    source that never steps up by more than one comes back as a single
    run). *)
Theorem contiguous_unsorted (xs : list Z) :
  2 ≤ length xs →
  failure (contiguous xs) = None
  ∧ concat (yielded (contiguous xs)) = xs
  ∧ length (yielded (contiguous xs)) = S (jumps xs).
Proof.
  intros Hlen. destruct xs as [|x [|y rest]]; simpl in Hlen; try lia.
  rewrite contiguous_runs. cbn [yielded failure]. split_and!.
  - done.
  - apply (runs_from_concat [] x (y :: rest)).
  - apply (runs_from_length [] x (y :: rest)).
Qed.

Lemma contiguous_unsorted_witness :
  failure (contiguous [5; 3; 4; 9; 1]%Z) = None
  ∧ concat (yielded (contiguous [5; 3; 4; 9; 1]%Z)) = [5; 3; 4; 9; 1]%Z
  ∧ length (yielded (contiguous [5; 3; 4; 9; 1]%Z))
    = S (jumps [5; 3; 4; 9; 1]%Z).
Proof. apply (contiguous_unsorted [5; 3; 4; 9; 1]%Z). simpl. lia. Defined.

(** ** Enumerations by value *)

Lemma combinations_NoDup {A} (pool : list A) r :
  NoDup pool → NoDup (combinations pool r).
Proof.
  intros Hpool. revert r.
  induction Hpool as [|x pool Hx Hpool IH]; intros [|r]; simpl;
    try apply NoDup_singleton; [apply NoDup_nil_2|].
  apply NoDup_app. split_and!.
  - apply NoDup_fmap_2; [|apply IH]. by intros ?? [= ->].
  - intros c (c' & -> & _)%list_elem_of_fmap [Hsub _]%elem_of_combinations.
    apply Hx. eapply elem_of_sublist; [|done]. by left.
  - apply IH.
Qed.

Lemma selections_fst_inj {A} (pool : list A) s1 s2 :
  NoDup pool → s1 ∈ selections pool → s2 ∈ selections pool →
  s1.1 = s2.1 → s1 = s2.
Proof.
  intros Hpool. revert s1 s2.
  induction Hpool as [|x pool Hx Hpool IH]; intros s1 s2; simpl.
  { by intros ?%elem_of_nil. }
  assert (∀ s, s ∈ selections pool → s.1 ≠ x) as Hne.
  { intros s Hs <-. apply Hx.
    rewrite (selections_Permutation pool s) by done. by left. }
  rewrite !elem_of_cons, !list_elem_of_fmap.
  intros [->|(s1' & -> & Hs1)] [->|(s2' & -> & Hs2)] Heq; simpl in *.
  - done.
  - by destruct (Hne s2' Hs2).
  - by destruct (Hne s1' Hs1).
  - by rewrite (IH s1' s2' Hs1 Hs2 Heq).
Qed.

Lemma selections_NoDup {A} (pool : list A) :
  NoDup pool → NoDup (selections pool).
Proof.
  intros Hpool. apply NoDup_alt. intros i j s Hi Hj.
  assert (fst <$> selections pool = pool) as Hfst.
  { clear. induction pool as [|x pool IH]; simpl; [done|].
    f_equal. rewrite <-list_fmap_compose. by rewrite <-IH at 2. }
  eapply NoDup_lookup; [by rewrite <-Hfst in Hpool| |].
  - by rewrite list_lookup_fmap, Hi.
  - by rewrite list_lookup_fmap, Hj.
Qed.

Lemma permutations_NoDup {A} (pool : list A) r :
  NoDup pool → NoDup (permutations pool r).
Proof.
  revert pool. induction r as [|r IH]; intros pool Hpool; simpl.
  - apply NoDup_singleton.
  - apply NoDup_bind.
    + intros s1 s2 p Hs1 Hs2 (p1 & -> & _)%list_elem_of_fmap
        (p2 & [= Heq _] & _)%list_elem_of_fmap.
      by apply (selections_fst_inj pool).
    + intros s Hs. apply NoDup_fmap_2; [by intros ?? [= ->]|].
      apply IH.
      apply (sublist_NoDup _ pool); [done|by apply selections_rest_sublist].
    + by apply selections_NoDup.
Qed.

Lemma sizes_NoDup_bind {A B} (f : nat → list (list B)) (items : list A) :
  (∀ r x, x ∈ f r → length x = r) →
  (∀ r, NoDup (f r)) →
  NoDup (sizes items ≫= f).
Proof.
  intros Hlen Hf. apply NoDup_bind.
  - intros r1 r2 x _ _ H1 H2. by rewrite <-(Hlen r1 x), <-(Hlen r2 x).
  - intros r _. apply Hf.
  - apply NoDup_seq.
Qed.

(** X5.  When the items are pairwise distinct, no tuple is emitted twice,
    neither by [powerset] nor by [all_permutations]. *)
Theorem enumerations_without_repetition {A} (iterable : source A) :
  NoDup (contents iterable) →
  NoDup (yielded (powerset iterable).1)
  ∧ NoDup (yielded (all_permutations iterable).1).
Proof.
  intros Hnd. rewrite powerset_unfold, all_permutations_unfold. simpl.
  split; apply sizes_NoDup_bind.
  - by intros r x [_ ?]%elem_of_combinations.
  - intros r. by apply combinations_NoDup.
  - by intros r x [? _]%elem_of_permutations.
  - intros r. by apply permutations_NoDup.
Qed.

Lemma enumerations_without_repetition_witness :
  NoDup (yielded (powerset (Sequence [1; 2; 3])).1)
  ∧ NoDup (yielded (all_permutations (Sequence [1; 2; 3])).1).
Proof.
  apply (enumerations_without_repetition (Sequence [1; 2; 3])).
  simpl. apply (NoDup_seq 1 3).
Defined.

Lemma elem_of_powerset {A} (iterable : source A) x :
  x ∈ yielded (powerset iterable).1
  ↔ x ≠ [] ∧ x `sublist_of` contents iterable.
Proof.
  rewrite powerset_unfold. simpl. rewrite list_elem_of_bind. split.
  - intros (r & [Hsub Hlen]%elem_of_combinations & Hr%elem_of_seq).
    split; [|done]. intros ->. simpl in Hlen. lia.
  - intros [Hne Hsub]. exists (length x). split.
    + by apply elem_of_combinations.
    + apply elem_of_seq. apply sublist_length in Hsub.
      destruct x; [done|]. simpl in *. lia.
Qed.

Lemma elem_of_all_permutations {A} (iterable : source A) p :
  p ∈ yielded (all_permutations iterable).1
  ↔ p ≠ [] ∧ p ⊆+ contents iterable.
Proof.
  rewrite all_permutations_unfold. simpl. rewrite list_elem_of_bind. split.
  - intros (r & [Hlen Hsub]%elem_of_permutations & Hr%elem_of_seq).
    split; [|done]. intros ->. simpl in Hlen. lia.
  - intros [Hne Hsub]. exists (length p). split.
    + by apply elem_of_permutations.
    + apply elem_of_seq. apply submseteq_length in Hsub.
      destruct p; [done|]. simpl in *. lia.
Qed.

(** X6.  [powerset] emits exactly the non-empty selections of items that
    keep the order of the input; [all_permutations] emits exactly the
    non-empty arrangements of items that use no position twice; so
    everything [powerset] emits, [all_permutations] emits too. *)
Theorem enumerations_by_value {A} (iterable : source A) (x : list A) :
  (x ∈ yielded (powerset iterable).1
   ↔ x ≠ [] ∧ x `sublist_of` contents iterable)
  ∧ (x ∈ yielded (all_permutations iterable).1
     ↔ x ≠ [] ∧ x ⊆+ contents iterable)
  ∧ (x ∈ yielded (powerset iterable).1 ↔
     x ∈ yielded (all_permutations iterable).1
     ∧ x `sublist_of` contents iterable).
Proof.
  rewrite elem_of_powerset, elem_of_all_permutations. split_and!; try done.
  split.
  - intros [? Hsub]. split_and!; try done. by apply sublist_submseteq.
  - by intros [[? _] ?].
Qed.

(** ** The word finder and the bag of letters *)

Lemma valid_words_Ok letters dictionary :
  ∃ words : gset string,
    valid_words letters dictionary = Ok words
    ∧ ∀ w, w ∈ words
           ↔ w ∈ dictionary ∧ ∃ p, p ≠ [] ∧ p ⊆+ letters ∧ w = join p.
Proof.
  unfold valid_words. pose proof (elem_of_all_permutations (Sequence letters)).
  rewrite all_permutations_unfold in *. simpl in *.
  eexists. split; [done|]. intros w.
  rewrite elem_of_intersection, elem_of_list_to_set, list_elem_of_fmap.
  split.
  - intros [(p & -> & [? ?]%H) ?]. eauto.
  - intros [? (p & ? & ? & ->)]. split; [|done]. exists p.
    split; [done|]. by apply H.
Qed.

(** X7.  The words found depend on the letters as a bag only: giving the
    same letters in another order gives the same set of words. *)
Theorem valid_words_order_irrelevant letters letters' dictionary :
  letters ≡ₚ letters' →
  valid_words letters dictionary = valid_words letters' dictionary.
Proof.
  intros Hperm.
  destruct (valid_words_Ok letters dictionary) as (ws & -> & Hws).
  destruct (valid_words_Ok letters' dictionary) as (ws' & -> & Hws').
  f_equal. apply set_eq. intros w. rewrite Hws, Hws'.
  by setoid_rewrite Hperm.
Qed.

Lemma valid_words_order_irrelevant_witness :
  valid_words ["t"; "a"; "c"] {["cat"; "act"; "dog"]}
  = valid_words ["c"; "a"; "t"] {["cat"; "act"; "dog"]}.
Proof.
  apply valid_words_order_irrelevant.
  apply (Permutation_rev ["t"; "a"; "c"]).
Defined.

(** X8.  More letters or a larger dictionary never lose a word: the
    result grows with the bag of letters and with the dictionary; with no
    letter at all nothing is found. *)
Theorem valid_words_monotone letters letters' (dictionary dictionary' : gset string) :
  letters ⊆+ letters' → dictionary ⊆ dictionary' →
  ∃ words words' : gset string,
    valid_words letters dictionary = Ok words
    ∧ valid_words letters' dictionary' = Ok words'
    ∧ words ⊆ words'
    ∧ valid_words [] dictionary = Ok ∅.
Proof.
  intros Hl Hd.
  destruct (valid_words_Ok letters dictionary) as (ws & Hv & Hws).
  destruct (valid_words_Ok letters' dictionary') as (ws' & Hv' & Hws').
  exists ws, ws'. split_and!; try done.
  - intros w. rewrite Hws, Hws'. intros [? (p & ? & ? & ->)].
    split; [by apply Hd|]. exists p. split_and!; try done. by trans letters.
  - destruct (valid_words_Ok [] dictionary) as (ws0 & -> & Hws0).
    f_equal. apply set_eq. intros w. rewrite Hws0, elem_of_empty.
    split; [|done]. intros [_ (p & Hne & Hsub & _)].
    by apply submseteq_nil_r in Hsub.
Qed.

Lemma valid_words_monotone_witness :
  ∃ words words' : gset string,
    valid_words ["a"] {["a"]} = Ok words
    ∧ valid_words ["a"; "b"] {["a"; "ab"]} = Ok words'
    ∧ words ⊆ words'
    ∧ valid_words [] {["a"]} = Ok ∅.
Proof.
  apply valid_words_monotone.
  - apply submseteq_skip, submseteq_nil_l.
  - apply union_subseteq_l.
Defined.

(** ** The three versions of [find] *)

Lemma joined_window s i n :
  joined (take n (drop i (chars s))) = take n (drop i s).
Proof.
  unfold joined, chars. rewrite <-fmap_drop, <-fmap_take.
  induction (take n (drop i s)) as [|c l IH]; simpl; [done|].
  by f_equal.
Qed.

Lemma pairwise_chars s :
  6 ≤ length s →
  pairwise (chars s) 7
  = Ok ((λ i, take 7 (drop i (chars s))) <$> seq 0 (length s - 6)).
Proof.
  intros Hs. assert (length (chars s) = length s) as Hlen.
  { unfold chars. by rewrite length_fmap. }
  rewrite pairwise_windows by lia. do 3 f_equal. lia.
Qed.

Lemma first_match_slices s idxs :
  first_match (joined <$> ((λ i, take 7 (drop i (chars s))) <$> idxs))
  = find_slices_from s idxs.
Proof.
  induction idxs as [|idx idxs IH]; [done|].
  rewrite !fmap_cons. cbn [first_match find_slices_from].
  rewrite joined_window, IH. done.
Qed.

Lemma head_filter_first_match substrs :
  head (filter (λ x, matches x) substrs) = first_match substrs.
Proof.
  induction substrs as [|x substrs IH]; [done|].
  cbn [first_match]. destruct (decide (matches x)) as [Hm|Hm].
  - rewrite filter_cons_True by done. by destruct (matches x).
  - rewrite filter_cons_False by done. by destruct (matches x).
Qed.

(** X9.  On a string of six or more characters the three versions of
    [find] return the same thing: the slice loop, the loop over the
    joined windows of [pairwise], and [next] over the filtered [imap]. *)
Theorem find_versions_agree (s : list ascii) :
  6 ≤ length s →
  find_pairwise s = Ok (find_slices s)
  ∧ find_imap s = Ok (find_slices s).
Proof.
  intros Hs. unfold find_pairwise, find_imap.
  rewrite pairwise_chars by done. simpl.
  rewrite head_filter_first_match, first_match_slices. done.
Qed.

Lemma find_versions_agree_witness :
  find_pairwise (String.list_ascii_of_string "jfjheNeKdlwoqjasJjasjDfk")
  = Ok (find_slices (String.list_ascii_of_string "jfjheNeKdlwoqjasJjasjDfk"))
  ∧ find_imap (String.list_ascii_of_string "jfjheNeKdlwoqjasJjasjDfk")
    = Ok (find_slices
            (String.list_ascii_of_string "jfjheNeKdlwoqjasJjasjDfk")).
Proof. apply find_versions_agree. simpl. lia. Defined.

Lemma pairwise_seven_runs_dry s :
  length s < 6 → pairwise (chars s) 7 = Raise StopIteration.
Proof.
  intros Hs. unfold pairwise, tee.
  change (replicate (Z.to_nat 7) (chars s)) with (replicate 7 (chars s)).
  cbn [Z.ltb Z.compare mbind outcome_bind].
  rewrite stagger_exhausted; [done|lia|].
  unfold chars. rewrite length_fmap. lia.
Qed.

(** X10.  On a string of fewer than six characters the versions differ:
    the slice loop returns [None], while the two versions built on
    [pairwise] raise [StopIteration], because staggering seven copies
    runs one of them dry. *)
Theorem find_short_string (s : list ascii) :
  length s < 6 →
  find_slices s = None
  ∧ find_pairwise s = Raise StopIteration
  ∧ find_imap s = Raise StopIteration.
Proof.
  intros Hs. unfold find_slices, find_pairwise, find_imap.
  rewrite pairwise_seven_runs_dry by done.
  replace (length s - 6) with 0 by lia. done.
Qed.

Lemma find_short_string_witness :
  find_slices (String.list_ascii_of_string "abCde") = None
  ∧ find_pairwise (String.list_ascii_of_string "abCde")
    = Raise StopIteration
  ∧ find_imap (String.list_ascii_of_string "abCde") = Raise StopIteration.
Proof. apply find_short_string. simpl. lia. Defined.

Lemma find_slices_from_Some s idxs w :
  find_slices_from s idxs = Some w
  ↔ ∃ k idx, idxs !! k = Some idx
      ∧ w = take 7 (drop idx s) ∧ matches w
      ∧ ∀ k' idx', k' < k → idxs !! k' = Some idx' →
          ¬ matches (take 7 (drop idx' s)).
Proof.
  induction idxs as [|idx idxs IH]; simpl.
  - split; [done|]. by intros (k & idx & ? & _).
  - destruct (matches (take 7 (drop idx s))) eqn:Hm.
    + apply Is_true_true_2 in Hm. split.
      * intros [= <-]. exists 0, idx. split_and!; try done.
        intros ???. lia.
      * intros ([|k] & idx' & Hk & -> & Hw & Hfirst); simplify_eq/=.
        -- done.
        -- destruct (Hfirst 0 idx); [lia|done|done].
    + apply Is_true_false_2 in Hm. rewrite IH. split.
      * intros (k & idx' & Hk & -> & Hw & Hfirst).
        exists (S k), idx'. split_and!; try done.
        intros [|k'] idx'' Hlt Hk'; simplify_eq/=.
        -- done.
        -- eapply Hfirst; [|done]. lia.
      * intros ([|k] & idx' & Hk & -> & Hw & Hfirst); simplify_eq/=.
        -- done.
        -- exists k, idx'. split_and!; try done.
           intros k' idx'' Hlt Hk'. apply (Hfirst (S k') idx''); [lia|done].
Qed.

Lemma find_slices_from_None s idxs :
  find_slices_from s idxs = None
  ↔ ∀ idx, idx ∈ idxs → ¬ matches (take 7 (drop idx s)).
Proof.
  induction idxs as [|idx idxs IH]; simpl.
  - split; [|done]. by intros _ ? ?%elem_of_nil.
  - destruct (matches (take 7 (drop idx s))) eqn:Hm.
    + apply Is_true_true_2 in Hm. split; [done|].
      intros Hall. destruct (Hall idx); [by left|done].
    + apply Is_true_false_2 in Hm. rewrite IH. split.
      * intros Hall idx' [->|?]%elem_of_cons; [done|by apply Hall].
      * intros Hall idx' ?. apply Hall. by right.
Qed.

(** X11.  The slice version of [find] returns the first match: its
    result is the seven characters from the least index at which the
    test succeeds, always wholly inside the string; it is [None] exactly
    when the test fails at every index. *)
Theorem find_slices_first_match (s w : list ascii) :
  (find_slices s = Some w
   ↔ ∃ i, i + 7 ≤ length s
       ∧ w = take 7 (drop i s) ∧ length w = 7 ∧ matches w
       ∧ ∀ j, j < i → ¬ matches (take 7 (drop j s)))
  ∧ (find_slices s = None
     ↔ ∀ i, i + 7 ≤ length s → ¬ matches (take 7 (drop i s))).
Proof.
  assert (find_slices s = Some w
   ↔ ∃ i, i + 7 ≤ length s
       ∧ w = take 7 (drop i s) ∧ length w = 7 ∧ matches w
       ∧ ∀ j, j < i → ¬ matches (take 7 (drop j s))) as HSome.
  { unfold find_slices. rewrite find_slices_from_Some. split.
    - intros (k & idx & [-> Hk]%lookup_seq & -> & Hw & Hfirst).
      exists k. simpl. split_and!; try done.
      + lia.
      + rewrite length_take, length_drop. lia.
      + intros j Hj. apply (Hfirst j j); [done|].
        apply lookup_seq. lia.
    - intros (i & Hi & -> & _ & Hw & Hfirst).
      exists i, i. split_and!; try done.
      + apply lookup_seq. lia.
      + intros k' idx' Hlt [-> _]%lookup_seq. by apply Hfirst. }
  split; [done|]. clear HSome. unfold find_slices.
  rewrite find_slices_from_None. split.
  - intros Hall i Hi. apply Hall, elem_of_seq. lia.
  - intros Hall idx [_ Hidx]%elem_of_seq. apply Hall. lia.
Qed.

(** ** The hand-written [zip], [map] and [filter] *)

Section BuiltinsFacts.
Context {A : Type}.
Implicit Types (first it : list A) (others its : list (list A)).

Lemma my_zip_loop_izip first others fuel rv :
length first < fuel →
my_zip_loop fuel (first :: others) rv
= Some (rv ++ izip_from first others).
Proof.
revert others fuel rv.
induction first as [|x first IH]; intros others [|fuel] rv Hfuel;
  simpl in *; try lia.
- by rewrite app_nil_r.
- destruct (pull others) as [[xs others']|]; [|by rewrite app_nil_r].
  rewrite IH by lia. by rewrite <-app_assoc.
Qed.

Lemma pull_heads its :
pull its
= xs ← mapM head its; Some (xs, tail <$> its).
Proof.
induction its as [|it its IH]; [done|].
cbn [pull]. rewrite IH. destruct it as [|x it]; [done|].
simpl. by destruct (mapM head its).
Qed.

Lemma mapM_lookup_S its i :
mapM (λ it, it !! S i) its
= _ ← mapM head its; mapM (λ it, it !! i) (tail <$> its).
Proof.
induction its as [|it its IH]; [done|].
cbn [mapM]. rewrite fmap_cons. cbn [mapM]. rewrite IH.
destruct it as [|x it]; simpl.
- done.
- destruct (mapM head its); simpl; [|by destruct (it !! i)].
  done.
Qed.

Lemma mapM_head_lookup its : mapM head its = mapM (λ it, it !! 0) its.
Proof.
induction its as [|it its IH]; [done|].
cbn [mapM]. rewrite IH. by destruct it.
Qed.

Lemma izip_from_lookup first others i :
izip_from first others !! i = mapM (λ it, it !! i) (first :: others).
Proof.
revert others i. induction first as [|x first IH]; intros others i.
- done.
- cbn [izip_from]. rewrite pull_heads.
  destruct i as [|i].
  + rewrite mapM_head_lookup. simpl.
    by destruct (mapM (λ it, it !! 0) others).
  + rewrite mapM_lookup_S. cbn [mapM head fmap list_fmap tail].
    destruct (mapM head others) as [xs|]; simpl; [|done].
    rewrite IH. done.
Qed.

(** X12.  Given at least one iterable, the loop of [my_zip] ends, within
    one round more than its first argument has elements, and returns what
    [izip] does. *)
Theorem my_zip_is_izip first others (fuel : nat) :
length first < fuel →
my_zip fuel (first :: others) = Some (izip (first :: others)).
Proof. intros Hfuel. unfold my_zip. by rewrite my_zip_loop_izip. Qed.

(** X13.  Called with no iterable at all, [my_zip] never returns: a
    round over no iterator cannot raise [StopIteration], so however many
    rounds are run the loop is still going (the built-in [izip] returns
    the empty sequence there). *)
Theorem my_zip_no_iterable_never_returns (fuel : nat) :
my_zip fuel ([] : list (list A)) = None
∧ izip ([] : list (list A)) = [].
Proof.
split; [|done]. unfold my_zip.
assert (∀ rv : list (list A), my_zip_loop fuel [] rv = None) as Hloop;
  [|apply Hloop].
induction fuel as [|fuel IH]; intros rv; simpl; [done|apply IH].
Qed.

(** X14.  The tuple at index [i] of the result of [my_zip] holds element
    [i] of every iterable, in the order of the arguments, and there is
    such a tuple exactly when every iterable has an element [i]: the
    result is cut at the shortest iterable. *)
Theorem my_zip_tuples first others (fuel : nat) :
length first < fuel →
∃ rv, my_zip fuel (first :: others) = Some rv
      ∧ ∀ i w, rv !! i = Some w
               ↔ Forall2 (λ it x, it !! i = Some x) (first :: others) w.
Proof.
intros Hfuel. exists (izip_from first others). split.
- unfold my_zip. by rewrite my_zip_loop_izip.
- intros i w. by rewrite izip_from_lookup, mapM_Some.
Qed.

Lemma my_map_loop_fmap {B} (func : list A → B) zipped rv :
my_map_loop func zipped rv = rv ++ (func <$> zipped).
Proof.
revert rv. induction zipped as [|elements zipped IH]; intros rv; simpl.
- by rewrite app_nil_r.
- by rewrite IH, <-app_assoc.
Qed.

(** X15.  [my_map] applies [func] to the tuples of [izip], in order: one
    result per element of the shortest iterable; over a single iterable
    that is one result per element; and with no iterable the result is
    empty. *)
Theorem my_map_pointwise {B} (func : list A → B) its (xs : list A) :
my_map func its = func <$> izip its
∧ my_map func [xs] = (λ x, func [x]) <$> xs
∧ my_map func [] = [].
Proof.
unfold my_map. rewrite !my_map_loop_fmap. split_and!; try done.
simpl. induction xs as [|x xs IH]; simpl; [done|]. by f_equal.
Qed.

Lemma my_filter_loop_filter (pred : A → bool) (iterable rv : list A) :
my_filter_loop pred iterable rv = rv ++ filter (λ x, pred x) iterable.
Proof.
revert rv. induction iterable as [|x iterable IH]; intros rv; simpl.
- by rewrite app_nil_r.
- destruct (decide (pred x)) as [Hx|Hx].
  + rewrite filter_cons_True by done. destruct (pred x); [|done].
    by rewrite IH, <-app_assoc.
  + rewrite filter_cons_False by done. by destruct (pred x).
Qed.

(** X16.  [my_filter] keeps, in their order, exactly the elements the
    predicate accepts (those that are true when the predicate is [None]);
    what it returns is a sublist of its input, and filtering it again
    changes nothing. *)
Theorem my_filter_keeps_accepted (truth : A → bool)
  (pred : option (A → bool)) (iterable : list A) :
let accepts := default truth pred in
my_filter truth pred iterable `sublist_of` iterable
∧ (∀ x, x ∈ my_filter truth pred iterable ↔ x ∈ iterable ∧ accepts x)
∧ Forall (λ x, accepts x) (my_filter truth pred iterable)
∧ my_filter truth pred (my_filter truth pred iterable)
  = my_filter truth pred iterable.
Proof.
intros accepts.
assert (∀ l, my_filter truth pred l = filter (λ x, accepts x) l) as Hf.
{ intros l. unfold my_filter, accepts.
  destruct pred as [pred|]; simpl; by rewrite my_filter_loop_filter. }
rewrite !Hf. split_and!.
- apply sublist_filter.
- intros x. rewrite list_elem_of_filter. tauto.
- apply Forall_forall. by intros x [? _]%list_elem_of_filter.
- rewrite list_filter_filter. apply list_filter_iff. tauto.
Qed.

End BuiltinsFacts.

Lemma my_zip_is_izip_witness :
  my_zip 4 [[1; 2; 3]; [4; 5]] = Some (izip [[1; 2; 3]; [4; 5]]).
Proof. apply (my_zip_is_izip [1; 2; 3] [[4; 5]] 4). simpl. lia. Defined.

Lemma my_zip_tuples_witness :
  ∃ rv, my_zip 4 [[1; 2; 3]; [4; 5]] = Some rv
        ∧ ∀ i w, rv !! i = Some w
                 ↔ Forall2 (λ it x, it !! i = Some x) [[1; 2; 3]; [4; 5]] w.
Proof. apply (my_zip_tuples [1; 2; 3] [[4; 5]] 4). simpl. lia. Defined.

(** ** Firing and rewarding *)

Section EmployeesFacts.
Context (same : employee → employee → bool).
Context (pat_on_back : employee → employee).

(** X17.  The function [fire] returns does to the second employee what
    the replaced code did: it sets [terminated] exactly when [can_fire]
    holds, and otherwise leaves the employee as it is; role and salary
    are never touched; and the two versions of [can_fire] agree, [1] for
    [True] and [0] for [False]. *)
Theorem fire_is_can_fire (employee1 employee2 : employee) :
call_firing (fire same employee1 employee2) employee2
= (if can_fire same employee1 employee2
   then set_terminated employee2 else employee2)
∧ can_fire_int same employee1 employee2
  = (if can_fire same employee1 employee2 then 1 else 0)%Z
∧ role (call_firing (fire same employee1 employee2) employee2)
  = role employee2
∧ salary (call_firing (fire same employee1 employee2) employee2)
  = salary employee2.
Proof.
unfold fire, can_fire, can_fire_int.
destruct (same employee1 employee2); [done|].
by repeat case_decide.
Qed.



(** X18.  For an employee in one of the six roles the dictionary version
    of [reward] does what the chain of [if] statements does. *)
Theorem reward_versions_agree (e : employee) :
role e ∈ known_roles →
reward_dispatch pat_on_back e = Rewarded (reward_ifs pat_on_back e).
Proof.
intros Hrole. destruct e as [r s t]. simpl in Hrole.
unfold known_roles in Hrole. unfold reward_dispatch, reward_ifs.
repeat (apply elem_of_cons in Hrole as [->|Hrole]); [..|by inv Hrole];
  by vm_compute.
Qed.


End EmployeesFacts.

Lemma reward_versions_agree_witness :
  reward_dispatch id (Employee "manager" 50000 false)
  = Rewarded (reward_ifs id (Employee "manager" 50000 false)).
Proof.
  apply reward_versions_agree. simpl. unfold known_roles.
  do 4 apply list_elem_of_further. apply list_elem_of_here.
Defined.


(** ** Documenting decorators *)

Lemma string_app_assoc (s1 s2 s3 : string) :
  (s1 +:+ s2) +:+ s3 = s1 +:+ (s2 +:+ s3).
Proof.
  induction s1 as [|c s1 IH]; [done|].
  unfold String.app in *. simpl. by rewrite IH.
Qed.

Lemma string_concat_cons sep x y ls :
  String.concat sep (x :: y :: ls)
  = x +:+ sep +:+ String.concat sep (y :: ls).
Proof. done. Qed.

Lemma string_concat_nested sep d lines1 lines2 :
  String.concat sep (String.concat sep (d :: lines1) :: lines2)
  = String.concat sep (d :: lines1 ++ lines2).
Proof.
  revert d. induction lines1 as [|a lines1 IH]; intros d; [done|].
  rewrite <-app_comm_cons, !string_concat_cons.
  destruct lines2 as [|b lines2].
  - by rewrite app_nil_r.
  - rewrite <-IH, !string_concat_cons, !string_app_assoc. done.
Qed.

(** X20.  Documenting twice is documenting once with all the lines:
    stacked decorators add their lines in the order they are applied, the
    one nearest to the [def] first, each line after a line feed; the
    docstring is never left missing, and a function without a docstring
    gets one that starts with an empty line.  For [root] this gives the
    three lines of the tutorial after an empty first line. *)
Theorem document_stacks :
  (∀ lines1 lines2 func,
     document lines2 (document lines1 func)
     = document (lines1 ++ lines2) func)
  ∧ (∀ lines1 lines2 lines3 func,
       postcondition lines3 (precondition lines2 (document lines1 func))
       = document (lines1
                   ++ ((λ x, "precondition: " +:+ x) <$> lines2)
                   ++ ((λ x, "postcondition: " +:+ x) <$> lines3)) func)
  ∧ (∀ name line lines,
       func_doc (document (line :: lines) (PyFunc name None))
       = Some (newline +:+ String.concat newline (line :: lines)))
  ∧ func_doc root
    = Some (newline +:+ "assumes IEEE-754 floating point arithmetic"
            +:+ newline +:+ "precondition: x >= 0"
            +:+ newline +:+ "postcondition: retval > 0").
Proof.
  assert (∀ lines1 lines2 func,
     document lines2 (document lines1 func)
     = document (lines1 ++ lines2) func) as Hstack.
  { intros lines1 lines2 func. unfold document.
    cbn [func_name func_doc]. by rewrite <-string_concat_nested. }
  split_and!; try done.
  intros lines1 lines2 lines3 func. unfold postcondition, precondition.
  by rewrite !Hstack.
Qed.

(** ** Market scenarios *)

Section MarketFacts.
Context {P : Type}.
Implicit Types (stocks : list (Stock P)) (shifts : gmap string (P → P)).

(** X21.  A market scenario keeps the stocks in their order with their
    ticker, sector and volume, and only moves the price of the sectors it
    has a shift for; two scenarios that shift no sector in common can be
    nested in either order. *)
Theorem market_scenarios_commute stocks shifts1 shifts2 :
shifts1 ##ₘ shifts2 →
MarketScenario_enter (MarketScenario_enter stocks shifts1) shifts2
= MarketScenario_enter (MarketScenario_enter stocks shifts2) shifts1
∧ Forall2 (λ s s', ticker s' = ticker s ∧ sector s' = sector s
                   ∧ volume s' = volume s
                   ∧ (shifts1 !! sector s = None → price s' = price s))
    stocks (MarketScenario_enter stocks shifts1).
Proof.
intros Hdisj. split.
- unfold MarketScenario_enter. rewrite <-!list_fmap_compose.
  apply list_fmap_ext. intros _ s _. simpl. f_equal.
  destruct (shifts1 !! sector s) as [f|] eqn:H1,
    (shifts2 !! sector s) as [g|] eqn:H2; simpl; try done.
  by destruct (map_disjoint_spec shifts1 shifts2) as [Hd _];
    destruct (Hd Hdisj _ _ _ H1 H2).
- unfold MarketScenario_enter. apply Forall2_fmap_r, Forall_Forall2_diag.
  apply Forall_forall. intros s _. simpl. split_and!; try done.
  by intros ->.
Qed.

End MarketFacts.

Lemma market_scenarios_commute_witness :
  let portfolio :=
    [MkStock "ADBE" "infotech" 315%Z 870; MkStock "BRK.B" "financials" 800%Z 630;
     MkStock "XOM" "energy" 793%Z 610] in
  let facebook_ipo : gmap string (Z → Z) := {["infotech" := λ x, x * 3 / 4]}%Z in
  let post_gfc : gmap string (Z → Z) := {["financials" := λ x, x * 2]}%Z in
  MarketScenario_enter (MarketScenario_enter portfolio facebook_ipo) post_gfc
  = MarketScenario_enter (MarketScenario_enter portfolio post_gfc) facebook_ipo
  ∧ Forall2 (λ s s', ticker s' = ticker s ∧ sector s' = sector s
                     ∧ volume s' = volume s
                     ∧ (facebook_ipo !! sector s = None → price s' = price s))
      portfolio (MarketScenario_enter portfolio facebook_ipo).
Proof.
  intros portfolio facebook_ipo post_gfc.
  apply (market_scenarios_commute portfolio facebook_ipo post_gfc).
  by apply map_disjoint_singleton_l, lookup_singleton_ne.
Defined.
